(** * Verification of [packages/@expressive-code/core/src/hast.ts]

    Shallow embedding of the HAST helper module of expressive-code: the
    property setter, the class-name helpers, the inline-style codec built
    on PostCSS, and [fromInlineMarkdown].

    Conventions of the embedding.
    - A JavaScript string is the list of its code units; the development
      covers code units 0..255 ([ascii]).  [js "abc"] is the string literal.
    - A JavaScript exception is a [Throw] in the [result] type; a function
      that mutates its argument returns the updated value.
    - A JavaScript [Map<string, string>] is an association list with unique
      keys in insertion order; a plain object used as a dictionary is a
      [gmap]. *)

From Stdlib Require Import Ascii String.
From stdpp Require Import gmap strings list.

Local Open Scope char_scope.
Local Open Scope list_scope.

(** ** JavaScript strings *)

Module Js.

Abbreviation jsstring := (list ascii).

Definition js (s : string) : jsstring := list_ascii_of_string s.

Definition TAB : ascii := "009".
Definition NEWLINE : ascii := "010".
Definition VTAB : ascii := "011".
Definition FEED : ascii := "012".
Definition CR : ascii := "013".
Definition SPACE : ascii := " ".
Definition NBSP : ascii := "160".

Definition ch_eqb (a b : ascii) : bool := Ascii.eqb a b.

Definition isIn (c : ascii) (set : jsstring) : bool := existsb (ch_eqb c) set.

(** The regular-expression class [\s] (and the characters removed by
    [String.prototype.trim]) restricted to code units below 256. *)
Definition is_whitespace (c : ascii) : bool :=
  isIn c [TAB; NEWLINE; VTAB; FEED; CR; SPACE; NBSP].

(** The class [[^\S\r\n]]: white space other than CR and LF. *)
Definition is_hspace (c : ascii) : bool :=
  is_whitespace c && negb (ch_eqb c CR) && negb (ch_eqb c NEWLINE).

Definition str_eqb (a b : jsstring) : bool := bool_decide (a = b).

Fixpoint trimStart (s : jsstring) : jsstring :=
  match s with
  | c :: rest => if is_whitespace c then trimStart rest else s
  | [] => []
  end.

Definition trimEnd (s : jsstring) : jsstring := rev (trimStart (rev s)).

Definition trim (s : jsstring) : jsstring := trimEnd (trimStart s).

Fixpoint startsWith (s prefix : jsstring) : bool :=
  match prefix, s with
  | [], _ => true
  | p :: prefix', c :: s' => ch_eqb p c && startsWith s' prefix'
  | _ :: _, [] => false
  end.

(** [s.includes(sub)] *)
Fixpoint includes (s sub : jsstring) : bool :=
  startsWith s sub ||
  match s with
  | [] => false
  | _ :: rest => includes rest sub
  end.

(** [parts.join(sep)] *)
Fixpoint join (sep : jsstring) (parts : list jsstring) : jsstring :=
  match parts with
  | [] => []
  | [p] => p
  | p :: rest => p ++ sep ++ join sep rest
  end.

Definition lower (c : ascii) : ascii :=
  let n := nat_of_ascii c in
  if (65 <=? n)%nat && (n <=? 90)%nat then ascii_of_nat (n + 32) else c.

Definition toLowerCase (s : jsstring) : jsstring := map lower s.

(** *** Global regular expressions

    A pattern is given by its matcher: [m s] is the length of the match of
    the pattern at the start of [s], if there is one.  The three patterns of
    this module never match the empty string, so an empty match is treated
    like a failure.  The scan keeps a counter of the characters still covered
    by the last match, which makes it structural in the input. *)

Definition matcher := jsstring → option nat.

Fixpoint replaceAll_go (m : matcher) (rep : jsstring) (skip : nat) (s : jsstring)
  : jsstring :=
  match s with
  | [] => []
  | c :: rest =>
      match skip with
      | S k => replaceAll_go m rep k rest
      | O =>
          match m s with
          | Some (S len) => rep ++ replaceAll_go m rep len rest
          | _ => c :: replaceAll_go m rep 0 rest
          end
      end
  end.

Definition replaceAll (m : matcher) (rep : jsstring) (s : jsstring) : jsstring :=
  replaceAll_go m rep 0 s.

(** [s.split(pattern)]: [cur] is the piece under construction, reversed. *)
Fixpoint split_go (m : matcher) (skip : nat) (cur : jsstring) (s : jsstring)
  : list jsstring :=
  match s with
  | [] => [rev cur]
  | c :: rest =>
      match skip with
      | S k => split_go m k cur rest
      | O =>
          match m s with
          | Some (S len) => rev cur :: split_go m len [] rest
          | _ => split_go m 0 (c :: cur) rest
          end
      end
  end.

Definition split (m : matcher) (s : jsstring) : list jsstring := split_go m 0 [] s.

(** Length of the longest prefix whose characters satisfy [p]. *)
Fixpoint run_length (p : ascii → bool) (s : jsstring) : nat :=
  match s with
  | c :: rest => if p c then S (run_length p rest) else 0
  | [] => 0
  end.

Definition is_newline (c : ascii) : bool := ch_eqb c NEWLINE.

(** [/\n+/] *)
Definition re_newlines : matcher := fun s =>
  let n := run_length is_newline s in
  if (1 <=? n)%nat then Some n else None.

(** [/\n{2,}/] *)
Definition re_blank_lines : matcher := fun s =>
  let n := run_length is_newline s in
  if (2 <=? n)%nat then Some n else None.

(** [/[^\S\r\n]*\r?\n[^\S\r\n]*/]: the leading run is greedy and can not
    give characters back, because CR and LF are outside its class. *)
Definition re_line_break : matcher := fun s =>
  let lead := run_length is_hspace s in
  match drop lead s with
  | c :: rest =>
      if ch_eqb c NEWLINE then Some (lead + 1 + run_length is_hspace rest)
      else if ch_eqb c CR then
        match rest with
        | d :: rest' =>
            if ch_eqb d NEWLINE then Some (lead + 2 + run_length is_hspace rest')
            else None
        | [] => None
        end
      else None
  | [] => None
  end.

End Js.

Import Js.


(** ** Exceptions *)

Inductive JsError : Type :=
  | CssSyntaxError (reason : string)
  | TypeError (reason : string).

Inductive result (A : Type) : Type :=
  | Ok (a : A)
  | Throw (e : JsError).
Arguments Ok {A} a.
Arguments Throw {A} e.

Definition rbind {A B} (r : result A) (k : A → result B) : result B :=
  match r with
  | Ok a => k a
  | Throw e => Throw e
  end.

Definition rmap {A B} (f : A → B) (r : result A) : result B :=
  rbind r (fun a => Ok (f a)).

Notation "'let!' x := r 'in' k" := (rbind r (fun x => k))
  (at level 10, x pattern, r at level 100, k at level 200, only parsing).

(** ** PostCSS

    [postcss] is an npm dependency of the package.  The module below models
    [postcss.parse] (its tokenizer [lib/tokenize.js] and parser
    [lib/parser.js]) and [Declaration.prototype.toString] to the extent
    that [hast.ts] observes them: the kinds of the root's children, and the
    [prop] and [value] of its declarations.  Source positions, [raws] and
    the contents of nested blocks are not represented; the syntax errors
    PostCSS throws are. *)

Module PostCss.

Inductive TokenType : Type :=
  | TSpace | TWord | TString | TBrackets | TAtWord | TComment
  | TOpenParen | TCloseParen | TOpenSquare | TCloseSquare
  | TOpenCurly | TCloseCurly | TColon | TSemicolon.

#[global] Instance TokenType_eq_dec : EqDecision TokenType.
Proof. solve_decision. Defined.

Record Token : Type := mkToken { ttype : TokenType; ttext : jsstring }.

Definition is_type (t : TokenType) (tok : Token) : bool := bool_decide (ttype tok = t).

Definition BACKSLASH : ascii := "\".
Definition SLASH : ascii := "/".
Definition ASTERISK : ascii := "*".
Definition DOUBLE_QUOTE : ascii := "034".
Definition SINGLE_QUOTE : ascii := "'".
Definition OPEN_PARENTHESES : ascii := "(".
Definition CLOSE_PARENTHESES : ascii := ")".
Definition AT : ascii := "@".

(** The white space of the tokenizer: space, LF, tab, CR and FF. *)
Definition is_css_space (c : ascii) : bool := isIn c [SPACE; NEWLINE; TAB; CR; FEED].

(** [RE_AT_END]: tab, LF, FF, CR, space, double quote, and the characters
    listed in the literal below. *)
Definition is_at_end (c : ascii) : bool :=
  isIn c ([TAB; NEWLINE; FEED; CR; SPACE; DOUBLE_QUOTE] ++ js "#'()/;[\]{}").

(** [RE_WORD_END]: tab, LF, FF, CR, space, double quote, the characters
    listed in the literal below, or a slash that starts a comment. *)
Definition is_word_end_char (c : ascii) : bool :=
  isIn c ([TAB; NEWLINE; FEED; CR; SPACE; DOUBLE_QUOTE] ++ js "!#'():;@[\]{}").

Fixpoint word_run (s : jsstring) : nat :=
  match s with
  | [] => 0
  | c :: rest =>
      if is_word_end_char c then 0
      else if ch_eqb c SLASH && match rest with d :: _ => ch_eqb d ASTERISK | [] => false end
      then 0
      else S (word_run rest)
  end.

(** [RE_HEX_ESCAPE = /[\da-f]/i] *)
Definition is_hex (c : ascii) : bool := isIn c (js "0123456789abcdefABCDEF").

(** Index of the first [q] that is preceded by an even number of
    backslashes; [escaped] tells whether the run of backslashes just read is
    odd. *)
Fixpoint find_unescaped (q : ascii) (escaped : bool) (s : jsstring) : option nat :=
  match s with
  | [] => None
  | c :: rest =>
      if ch_eqb c q then
        if escaped then S <$> find_unescaped q false rest else Some 0
      else if ch_eqb c BACKSLASH then S <$> find_unescaped q (negb escaped) rest
      else S <$> find_unescaped q false rest
  end.

(** [s.indexOf(sub)] *)
Fixpoint indexOf (sub : jsstring) (s : jsstring) : option nat :=
  if startsWith s sub then Some 0
  else match s with
       | [] => None
       | _ :: rest => S <$> indexOf sub rest
       end.

(** [RE_BAD_BRACKET]: any character but a line terminator, followed by CR,
    LF, a quote, an opening parenthesis, a slash or a backslash. *)
Fixpoint bad_bracket (s : jsstring) : bool :=
  match s with
  | c :: (d :: _) as rest =>
      (negb (isIn c [NEWLINE; CR]) &&
       isIn d [CR; NEWLINE; DOUBLE_QUOTE; SINGLE_QUOTE; OPEN_PARENTHESES; SLASH; BACKSLASH])
      || bad_bracket rest
  | _ => false
  end.

Definition control_type (c : ascii) : option TokenType :=
  if ch_eqb c "[" then Some TOpenSquare
  else if ch_eqb c "]" then Some TCloseSquare
  else if ch_eqb c "{" then Some TOpenCurly
  else if ch_eqb c "}" then Some TCloseCurly
  else if ch_eqb c ":" then Some TColon
  else if ch_eqb c ";" then Some TSemicolon
  else if ch_eqb c ")" then Some TCloseParen
  else None.

(** One call of [nextToken] at a position whose character is [c] and whose
    remaining input is [rest].  The result is the token, the buffer of word
    tokens, and the number of characters of [rest] the token covers. *)
Definition nextToken (buffer : list jsstring) (c : ascii) (rest : jsstring)
  : result (Token * list jsstring * nat) :=
  if is_css_space c then
    let n := run_length is_css_space rest in
    Ok (mkToken TSpace (c :: take n rest), buffer, n)
  else match control_type c with
  | Some t => Ok (mkToken t [c], buffer, 0)
  | None =>
  if ch_eqb c OPEN_PARENTHESES then
    let prev := hd [] buffer in
    let buffer := tl buffer in
    let url_start :=
      match rest with
      | n :: _ => negb (isIn n [SINGLE_QUOTE; DOUBLE_QUOTE; SPACE; NEWLINE; TAB; FEED; CR])
      | [] => true
      end in
    if str_eqb prev (js "url") && url_start then
      match find_unescaped CLOSE_PARENTHESES false rest with
      | None => Throw (CssSyntaxError "Unclosed bracket")
      | Some k => Ok (mkToken TBrackets (c :: take (S k) rest), buffer, S k)
      end
    else
      match indexOf [CLOSE_PARENTHESES] rest with
      | None => Ok (mkToken TOpenParen [c], buffer, 0)
      | Some k =>
          let content := c :: take (S k) rest in
          if bad_bracket content then Ok (mkToken TOpenParen [c], buffer, 0)
          else Ok (mkToken TBrackets content, buffer, S k)
      end
  else if ch_eqb c SINGLE_QUOTE || ch_eqb c DOUBLE_QUOTE then
    match find_unescaped c false rest with
    | None => Throw (CssSyntaxError "Unclosed string")
    | Some k => Ok (mkToken TString (c :: take (S k) rest), buffer, S k)
    end
  else if ch_eqb c AT then
    let n := run_length (fun d => negb (is_at_end d)) rest in
    Ok (mkToken TAtWord (c :: take n rest), buffer, n)
  else if ch_eqb c BACKSLASH then
    let b := run_length (fun d => ch_eqb d BACKSLASH) rest in
    let escape := Nat.even b in
    let after := drop b rest in
    let plain :=
      match after with
      | d :: _ => negb (isIn d [SLASH; SPACE; NEWLINE; TAB; CR; FEED])
      | [] => true
      end in
    let n :=
      if escape && plain then
        match after with
        | d :: after' =>
            if is_hex d then
              let h := run_length is_hex after' in
              match drop h after' with
              | e :: _ => if ch_eqb e SPACE then b + 1 + h + 1 else b + 1 + h
              | [] => b + 1 + h
              end
            else b + 1
        | [] => b + 1
        end
      else b in
    Ok (mkToken TWord (c :: take n rest), buffer, n)
  else if ch_eqb c SLASH && match rest with d :: _ => ch_eqb d ASTERISK | [] => false end then
    match indexOf (js "*/") (drop 1 rest) with
    | None => Throw (CssSyntaxError "Unclosed comment")
    | Some j => Ok (mkToken TComment (c :: take (j + 3) rest), buffer, j + 3)
    end
  else
    let n := word_run rest in
    let word := c :: take n rest in
    Ok (mkToken TWord word, word :: buffer, n)
  end.

(** The whole token stream.  [skip] counts the characters still covered by
    the token read last. *)
Fixpoint tokenize_go (buffer : list jsstring) (skip : nat) (css : jsstring)
  : result (list Token) :=
  match css with
  | [] => Ok []
  | c :: rest =>
      match skip with
      | S k => tokenize_go buffer k rest
      | O =>
          match nextToken buffer c rest with
          | Throw e => Throw e
          | Ok (tok, buffer', n) => rmap (cons tok) (tokenize_go buffer' n rest)
          end
      end
  end.

Definition tokenizer (css : jsstring) : result (list Token) := tokenize_go [] 0 css.

(** *** The parser

    The children of the root, as far as [hast.ts] reads them. *)
Inductive ChildNode : Type :=
  | Decl (prop value : jsstring) (important : bool)
  | Rule
  | AtRule (name : jsstring)
  | Comment.

Definition texts (tokens : list Token) : jsstring := concat (map ttext tokens).

Definition is_space_or_comment (tok : Token) : bool :=
  is_type TSpace tok || is_type TComment tok.

Fixpoint drop_while {A} (p : A → bool) (l : list A) : list A :=
  match l with
  | x :: l' => if p x then drop_while p l' else l
  | [] => []
  end.

Fixpoint take_while {A} (p : A → bool) (l : list A) : list A :=
  match l with
  | x :: l' => if p x then x :: take_while p l' else []
  | [] => []
  end.

(** What is left of [l] once [l.pop()] has run for as long as [p] holds of
    the last element. *)
Definition drop_end_while {A} (p : A → bool) (l : list A) : list A :=
  rev (drop_while p (rev l)).

Definition unknownWord {A} : result A := Throw (CssSyntaxError "Unknown word").

(** The regular-expression test [\w] on a token text. *)
Definition has_word_char (s : jsstring) : bool :=
  existsb
    (fun c => isIn c (js "abcdefghijklmnopqrstuvwxyzABCDEFGHIJKLMNOPQRSTUVWXYZ0123456789_"))
    s.

(** [decl]: the tokens before the property name. *)
Fixpoint decl_before (tokens : list Token) : result (list Token) :=
  match tokens with
  | [] => Throw (TypeError "tokens[0] is undefined")
  | t :: rest =>
      if is_type TWord t then Ok tokens
      else match rest with
           | [] => unknownWord
           | _ :: _ => decl_before rest
           end
  end.

Definition is_prop_end (tok : Token) : bool :=
  is_type TColon tok || is_type TSpace tok || is_type TComment tok.

(** [decl]: the tokens between the property name and the value. *)
Fixpoint decl_between (tokens : list Token) : result (list Token) :=
  match tokens with
  | [] => Ok []
  | t :: rest =>
      if is_type TColon t then Ok rest
      else if is_type TWord t && has_word_char (ttext t) then unknownWord
      else decl_between rest
  end.

(** [decl]: a leading underscore or asterisk is moved out of the name. *)
Definition strip_hack (prop : jsstring) : jsstring :=
  match prop with
  | c :: prop' => if ch_eqb c "_" || ch_eqb c "*" then prop' else prop
  | [] => []
  end.

Definition spacesFromEnd (tokens : list Token) : list Token :=
  drop_end_while (is_type TSpace) tokens.

(** [decl]: the inner loop run when a token reads [important]; it pops
    the cache from its end while [j] walks down. *)
Fixpoint important_word (j : nat) (cache : list Token) (str : jsstring)
  : result (list Token * jsstring) :=
  match j with
  | O => Ok (cache, str)
  | S j' =>
      match cache !! j with
      | None => Throw (TypeError "cache[j] is undefined")
      | Some tok =>
          if startsWith (trim str) (js "!") && negb (is_type TSpace tok) then Ok (cache, str)
          else
            match last cache with
            | Some popped => important_word j' (removelast cache) (ttext popped ++ str)
            | None => Throw (TypeError "cache.pop() is undefined")
            end
      end
  end.

(** [decl]: the loop that looks for [!important] from the end of the value;
    [i] is one more than the index visited. *)
Fixpoint important_loop (i : nat) (tokens : list Token) : result (list Token * bool) :=
  match i with
  | O => Ok (tokens, false)
  | S i' =>
      match tokens !! i' with
      | None => Throw (TypeError "token is undefined")
      | Some token =>
          let text := toLowerCase (ttext token) in
          if str_eqb text (js "!important") then Ok (spacesFromEnd (take i' tokens), true)
          else
            let! (tokens', imp) :=
              (if str_eqb text (js "important") then
                 let! (cache, str) := important_word i' tokens [] in
                 if startsWith (trim str) (js "!") then Ok (cache, true)
                 else Ok (tokens, false)
               else Ok (tokens, false)) in
            if negb (is_space_or_comment token) then Ok (tokens', imp)
            else
              let! (tokens'', imp') := important_loop i' tokens' in
              Ok (tokens'', imp || imp')
      end
  end.

Definition safe_comment_neighbor (t : option TokenType) : bool :=
  match t with
  | None | Some TSpace => true
  | Some _ => false
  end.

(** [raw]: the clean value of a token list. *)
Fixpoint raw_go (custom : bool) (prev : option TokenType) (value : jsstring)
    (tokens : list Token) : jsstring :=
  match tokens with
  | [] => value
  | t :: rest =>
      let here := Some (ttype t) in
      if is_type TSpace t && bool_decide (rest = []) && negb custom then
        raw_go custom here value rest
      else if is_type TComment t then
        if negb (safe_comment_neighbor prev)
           && negb (safe_comment_neighbor (ttype <$> head rest)) then
          if bool_decide (last value = Some ","%char) then raw_go custom here value rest
          else raw_go custom here (value ++ ttext t) rest
        else raw_go custom here value rest
      else raw_go custom here (value ++ ttext t) rest
  end.

Definition raw (tokens : list Token) (custom : bool) : jsstring :=
  raw_go custom None [] tokens.

(** [colon]: whether the tokens hold a colon outside parentheses. *)
Fixpoint colon (brackets : Z) (prev : option Token) (tokens : list Token) : result bool :=
  match tokens with
  | [] => Ok false
  | t :: rest =>
      let brackets :=
        if is_type TOpenParen t then (brackets + 1)%Z
        else if is_type TCloseParen t then (brackets - 1)%Z
        else brackets in
      if bool_decide (brackets = 0%Z) && is_type TColon t then
        match prev with
        | None => Throw (CssSyntaxError "Double colon")
        | Some p =>
            if is_type TWord p && str_eqb (ttext p) (js "progid") then colon brackets prev rest
            else Ok true
        end
      else colon brackets (Some t) rest
  end.

Definition checkMissedSemicolon (tokens : list Token) : result unit :=
  let! found := colon 0 None tokens in
  if found : bool then Throw (CssSyntaxError "Missed semicolon") else Ok tt.

Definition decl (tokens : list Token) (custom : bool) : result ChildNode :=
  match last tokens with
  | None => Throw (TypeError "last is undefined")
  | Some last_token =>
      let tokens := if is_type TSemicolon last_token then removelast tokens else tokens in
      let! tokens := decl_before tokens in
      let prop := texts (take_while (fun t => negb (is_prop_end t)) tokens) in
      let tokens := drop_while (fun t => negb (is_prop_end t)) tokens in
      let! tokens := decl_between tokens in
      let prop := strip_hack prop in
      let firstSpaces := take_while is_space_or_comment tokens in
      let tokens := drop_while is_space_or_comment tokens in
      let! (tokens, important) := important_loop (length tokens) tokens in
      let hasWord := existsb (fun t => negb (is_space_or_comment t)) tokens in
      let value := raw ((if hasWord then [] else firstSpaces) ++ tokens) custom in
      let! _ :=
        (if includes value (js ":") && negb custom then checkMissedSemicolon tokens
         else Ok tt) in
      Ok (Decl prop value important)
  end.

(** [other]: how the scan of a declaration or rule candidate ends. *)
Inductive OtherExit : Type :=
  | ExitDecl (tokens : list Token)
  | ExitRule (tokens : list Token)
  | ExitBreak (tokens : list Token) (brackets : list TokenType) (colon end_ : bool).

Definition closer (t : TokenType) : option TokenType :=
  match t with
  | TOpenParen => Some TCloseParen
  | TOpenSquare => Some TCloseSquare
  | _ => None
  end.

(** [other]: the loop over the tokens from [start] on; [acc] is [tokens],
    reversed. *)
Fixpoint other_scan (custom : bool) (acc : list Token) (brackets : list TokenType)
    (colon : bool) (input : list Token) : OtherExit :=
  match input with
  | [] => ExitBreak (rev acc) brackets colon true
  | token :: input' =>
      let type := ttype token in
      let acc' := token :: acc in
      match closer type with
      | Some c => other_scan custom acc' (c :: brackets) colon input'
      | None =>
          if custom && colon && bool_decide (type = TOpenCurly) then
            other_scan custom acc' (TCloseCurly :: brackets) colon input'
          else
            match brackets with
            | [] =>
                match type with
                | TSemicolon =>
                    if colon then ExitDecl (rev acc')
                    else ExitBreak (rev acc') [] colon (bool_decide (input' = []))
                | TOpenCurly => ExitRule (rev acc')
                | TCloseCurly => ExitBreak (rev acc) [] colon true
                | TColon => other_scan custom acc' [] true input'
                | _ => other_scan custom acc' [] colon input'
                end
            | b :: bs =>
                if bool_decide (type = b) then other_scan custom acc' bs colon input'
                else other_scan custom acc' brackets colon input'
            end
      end
  end.

(** [other]: the node built, if it is a declaration, and the number of
    tokens used up, the first one included. *)
Definition other (input : list Token) : result (ChildNode * nat) :=
  let custom := startsWith (ttext (hd (mkToken TWord []) input)) (js "--") in
  match other_scan custom [] [] false input with
  | ExitDecl tokens =>
      let! node := decl tokens custom in Ok (node, length tokens)
  | ExitRule tokens => Ok (Rule, length tokens)
  | ExitBreak tokens brackets colon end_ =>
      match brackets with
      | _ :: _ => Throw (CssSyntaxError "Unclosed bracket")
      | [] =>
          if end_ && colon then
            let tokens := if custom then tokens else drop_end_while is_space_or_comment tokens in
            let! node := decl tokens custom in Ok (node, length tokens)
          else unknownWord
      end
  end.

(** [atrule]: how the scan of the parameters ends, and after how many
    tokens. *)
Inductive AtExit : Type :=
  | AtSemicolon (n : nat)
  | AtOpen (n : nat)
  | AtClose (n : nat)
  | AtEnd (n : nat).

Fixpoint atrule_scan (brackets : list TokenType) (n : nat) (input : list Token) : AtExit :=
  match input with
  | [] => AtEnd n
  | token :: input' =>
      let type := ttype token in
      let brackets :=
        match closer type with
        | Some c => c :: brackets
        | None =>
            match brackets with
            | [] => []
            | b :: bs =>
                if bool_decide (type = TOpenCurly) then TCloseCurly :: brackets
                else if bool_decide (type = b) then bs
                else brackets
            end
        end in
      match brackets with
      | [] =>
          match type with
          | TSemicolon => AtSemicolon (S n)
          | TOpenCurly => AtOpen (S n)
          | TCloseCurly => AtClose (S n)
          | _ => atrule_scan [] (S n) input'
          end
      | _ :: _ => atrule_scan brackets (S n) input'
      end
  end.

(** The parser state: the depth of [current] below the root, and the
    children of the root so far. *)
Record State : Type := mkState { depth : nat; nodes : list ChildNode }.

(** [init]: the node is pushed to [current]. *)
Definition init (node : ChildNode) (st : State) : State :=
  match depth st with
  | O => mkState 0 (nodes st ++ [node])
  | S _ => st
  end.

Definition open_block (st : State) : State := mkState (S (depth st)) (nodes st).

(** [end]: closes [current], which must not be the root. *)
Definition end_block (st : State) : result State :=
  match depth st with
  | O => Throw (CssSyntaxError "Unexpected }")
  | S d => Ok (mkState d (nodes st))
  end.

Definition atrule (token : Token) (rest : list Token) (st : State) : result (State * nat) :=
  match tl (ttext token) with
  | [] => Throw (CssSyntaxError "At-rule without name")
  | name =>
      let st := init (AtRule name) st in
      match atrule_scan [] 0 rest with
      | AtSemicolon n | AtEnd n => Ok (st, n)
      | AtOpen n => Ok (open_block st, n)
      | AtClose n => let! st := end_block st in Ok (st, n)
      end
  end.

(** [parse] and [endFile]; [skip] counts the tokens already used up by the
    node read last. *)
Fixpoint parse_go (skip : nat) (st : State) (input : list Token) : result (list ChildNode) :=
  match input with
  | [] =>
      match depth st with
      | O => Ok (nodes st)
      | S _ => Throw (CssSyntaxError "Unclosed block")
      end
  | token :: rest =>
      match skip with
      | S k => parse_go k st rest
      | O =>
          match ttype token with
          | TSpace | TSemicolon => parse_go 0 st rest
          | TCloseCurly => let! st := end_block st in parse_go 0 st rest
          | TComment => parse_go 0 (init Comment st) rest
          | TAtWord =>
              let! (st, n) := atrule token rest st in parse_go n st rest
          | TOpenCurly => parse_go 0 (open_block (init Rule st)) rest
          | _ =>
              let! (node, n) := other input in
              let st := init node st in
              let st := match node with Rule => open_block st | _ => st end in
              parse_go (pred n) st rest
          end
      end
  end.

(** [postcss.parse(css)], returning the children of the root.  The model
    tokenizes the whole input first; when both the tokenizer and the parser
    reject an input, the error reported is the tokenizer's.  Source-map
    annotations in comments are not interpreted. *)
Definition parse (css : jsstring) : result (list ChildNode) :=
  let! tokens := tokenizer css in
  parse_go 0 (mkState 0 []) tokens.

(** [new Declaration({ prop, value, raws: { between } }).toString()] *)
Definition Declaration_toString (prop value between : jsstring) : jsstring :=
  prop ++ between ++ value.

End PostCss.

(** ** [Map<string, string>]

    Insertion-ordered: [set] on a key already present keeps its position. *)

Module JsMap.

Abbreviation t := (list (jsstring * jsstring)).

Fixpoint set (k v : jsstring) (m : t) : t :=
  match m with
  | [] => [(k, v)]
  | (k', v') :: m' => if str_eqb k' k then (k, v) :: m' else (k', v') :: set k v m'
  end.

Fixpoint delete (k : jsstring) (m : t) : t :=
  match m with
  | [] => []
  | (k', v') :: m' => if str_eqb k' k then m' else (k', v') :: delete k m'
  end.

Fixpoint get (k : jsstring) (m : t) : option jsstring :=
  match m with
  | [] => None
  | (k', v') :: m' => if str_eqb k' k then Some v' else get k m'
  end.

Definition has (k : jsstring) (m : t) : bool := bool_decide (is_Some (get k m)).

Definition keys (m : t) : list jsstring := map fst m.

(** The invariant of a [Map]: no key occurs twice. *)
Definition wf (m : t) : Prop := NoDup (keys m).

End JsMap.

(** ** HAST nodes *)

(** The values a property of an element can hold; numbers are left out. *)
Inductive PropertyValue : Type :=
  | PVString (s : jsstring)
  | PVArray (items : list jsstring)
  | PVBool (b : bool)
  | PVNull.

Abbreviation Properties := (gmap jsstring PropertyValue).

#[warnings="-register-all"]
Inductive Node : Type :=
  | Text (value : jsstring)
  | ElementNode (tagName : jsstring) (properties : option Properties) (children : list Node).

Record Element : Type := mkElement {
  tagName : jsstring;
  properties : option Properties;
  children : list Node
}.

Record Root : Type := mkRoot { root_children : list Node }.

Definition element_node (e : Element) : Node :=
  ElementNode (tagName e) (properties e) (children e).

(** [node.properties?.[name]]: [None] stands for [undefined]. *)
Definition getProperty (node : Element) (name : jsstring) : option PropertyValue :=
  match properties node with
  | None => None
  | Some props => props !! name
  end.

(** [value?.toString()] *)
Definition toString (value : PropertyValue) : option jsstring :=
  match value with
  | PVString s => Some s
  | PVArray items => Some (join (js ",") items)
  | PVBool true => Some (js "true")
  | PVBool false => Some (js "false")
  | PVNull => None
  end.

(** [setProperty], lines 23-31. *)
Definition setProperty (node : Element) (propertyName : jsstring)
    (value : option PropertyValue) : Element :=
  let properties := default ∅ (properties node) in
  let properties :=
    match value with
    | Some v => <[propertyName := v]> properties
    | None => base.delete propertyName properties
    end in
  mkElement (tagName node) (Some properties) (children node).

(** ** Inline styles *)

(** The effects of the body of [getInlineStyles]: the [styles] map is
    mutated in place and survives an exception; [parsed] records the
    arguments [postcss.parse] was called with. *)
Record Heap : Type := mkHeap { styles : JsMap.t; parsed : list jsstring }.

Definition Eff (A : Type) : Type := Heap → result A * Heap.

Definition eret {A} (a : A) : Eff A := fun h => (Ok a, h).

Definition ebind {A B} (m : Eff A) (k : A → Eff B) : Eff B := fun h =>
  match m h with
  | (Ok a, h') => k a h'
  | (Throw e, h') => (Throw e, h')
  end.

(** [try { body } catch (error) { handler }] *)
Definition try_catch {A} (body : Eff A) (handler : JsError → Eff A) : Eff A := fun h =>
  match body h with
  | (Ok a, h') => (Ok a, h')
  | (Throw e, h') => handler e h'
  end.

Definition get_styles : Eff JsMap.t := fun h => (Ok (styles h), h).

Definition styles_set (k v : jsstring) : Eff unit := fun h =>
  (Ok tt, mkHeap (JsMap.set k v (styles h)) (parsed h)).

Notation "'do!' x := m 'in' k" := (ebind m (fun x => k))
  (at level 10, x pattern, m at level 100, k at level 200, only parsing).

Inductive ValueFormat : Type := FormatRaw | FormatString.

Section InlineStyles.

(** [postcss.parse], and [serializeCssStringValue] of [./internal/escaping]. *)
Variable postcss_parse : jsstring → result (list PostCss.ChildNode).
Variable serializeCssStringValue : jsstring → jsstring.

Definition postcss_parse_eff (css : jsstring) : Eff (list PostCss.ChildNode) := fun h =>
  (postcss_parse css, mkHeap (styles h) (parsed h ++ [css])).

(** [root.each(callback)] *)
Fixpoint each (nodes : list PostCss.ChildNode) (callback : PostCss.ChildNode → Eff unit)
  : Eff unit :=
  match nodes with
  | [] => eret tt
  | node :: rest => do! _ := callback node in each rest callback
  end.

(** [node.properties?.style?.toString().trim() || ''] *)
Definition styleString (node : Element) : jsstring :=
  match getProperty node (js "style") with
  | None => []
  | Some v =>
      match toString v with
      | None => []
      | Some s => trim s
      end
  end.

(** [getInlineStyles], lines 85-107. *)
Definition getInlineStyles_body (node : Element) : Eff JsMap.t :=
  let styleString := styleString node in
  match styleString with
  | [] => get_styles
  | _ :: _ =>
      do! _ :=
        try_catch
          (do! root := postcss_parse_eff styleString in
           each root (fun node =>
             match node with
             | PostCss.Decl prop value _ => styles_set prop value
             | _ => eret tt
             end))
          (fun error => eret tt) in
      get_styles
  end.

Definition getInlineStyles_run (node : Element) : result JsMap.t * Heap :=
  getInlineStyles_body node (mkHeap [] []).

Definition getInlineStyles (node : Element) : result JsMap.t :=
  fst (getInlineStyles_run node).

(** [setInlineStyles], lines 114-127. *)
Definition setInlineStyles (node : Element) (styles : JsMap.t) : Element :=
  let styleString :=
    join (js ";")
      (map (fun '(prop, value) => PostCss.Declaration_toString prop value (js ":")) styles) in
  setProperty node (js "style") (Some (PVString styleString)).

(** [setInlineStyle], lines 138-146; [None] is the value [null]. *)
Definition setInlineStyle (node : Element) (cssProperty : jsstring)
    (value : option jsstring) (valueFormat : ValueFormat) : result Element :=
  let! styles := getInlineStyles node in
  let styles :=
    match value with
    | Some value =>
        JsMap.set cssProperty
          (match valueFormat with
           | FormatString => serializeCssStringValue value
           | FormatRaw => value
           end) styles
    | None => JsMap.delete cssProperty styles
    end in
  Ok (setInlineStyles node styles).

End InlineStyles.

(** ** hastscript

    [h(selector, ...children)] of the npm package hastscript, for the two
    shapes of call in [fromInlineMarkdown]: a child that is a root
    contributes its children, a child that is an array its items. *)

Module Hastscript.

Inductive Child : Type :=
  | ChildNode (node : Node)
  | ChildRoot (root : Root)
  | ChildArray (items : list Node).

Definition addChild (nodes : list Node) (value : Child) : list Node :=
  match value with
  | ChildNode node => nodes ++ [node]
  | ChildRoot root => nodes ++ root_children root
  | ChildArray items => nodes ++ items
  end.

(** [h(tagName, ...children)] and [h(tagName, properties, ...children)] *)
Definition h (tagName : jsstring) (properties : Properties) (children : list Child) : Element :=
  mkElement tagName (Some properties) (fold_left addChild children []).

(** [h(null, children)] *)
Definition h_root (children : list Child) : Root :=
  mkRoot (fold_left addChild children []).

End Hastscript.

(** ** The inline Markdown tokenizer and parser *)

(** Modelled from the spec: the modules [./internal/markdown-tokenizer] and
    [./internal/markdown-parser] are imported by [hast.ts] and are not among
    the sources.  Every definition of [Md] belongs to the model of the two
    functions imported from them, and follows sections 3 and 4 of the
    specification. *)
Module Md.

Inductive Weight : Type := Single | Double.

#[global] Instance Weight_eq_dec : EqDecision Weight.
Proof. solve_decision. Defined.

(** The token of section 3 of the specification.  An emphasis marker also
    carries its character, which the parser needs to write an unmatched
    marker back as text. *)
Inductive Token : Type :=
  | TText (s : jsstring)
  | TEmphasisMarker (weight : Weight) (c : ascii)
  | TCodeSpanMarker
  | TLinkTextOpen
  | TLinkTextClose
  | TLinkUrlOpen
  | TLinkUrlClose
  | TEscapedChar (c : ascii).

Definition BACKTICK : ascii := "`".

(** Index of the bracket that closes link text: escaped characters are
    passed over and nested brackets are counted. *)
Fixpoint find_close (skip depth : nat) (s : jsstring) : option nat :=
  match s with
  | [] => None
  | c :: rest =>
      match skip with
      | S k => S <$> find_close k depth rest
      | O =>
          if ch_eqb c "\" then S <$> find_close 1 depth rest
          else if ch_eqb c "[" then S <$> find_close 0 (S depth) rest
          else if ch_eqb c "]" then
            match depth with
            | O => Some 0
            | S d => S <$> find_close 0 d rest
            end
          else S <$> find_close 0 depth rest
      end
  end.

(** [link_ahead rest] looks at the input after an opening bracket: the
    link text has [n] characters and the URL [m] when the closing bracket
    is immediately followed by a parenthesised URL. *)
Definition link_ahead (rest : jsstring) : option (nat * nat) :=
  match find_close 0 0 rest with
  | None => None
  | Some n =>
      match drop (S n) rest with
      | c :: after =>
          if ch_eqb c "(" then
            match PostCss.indexOf [")"] after with
            | Some m => Some (n, m)
            | None => None
            end
          else None
      | [] => None
      end
  end.

(** One step of the tokenizer at the character [c]: the tokens produced,
    the number of characters of [rest] they cover, and the new link state.
    [inlink = Some n] means that the scan is inside link text with [n]
    characters to go before its closing bracket. *)
Definition lex_step (inlink : option nat) (c : ascii) (rest : jsstring)
  : list Token * nat * option nat :=
  let visible := match inlink with Some n => take n rest | None => rest end in
  let advance (used : nat) := (fun n => n - S used) <$> inlink in
  match inlink with
  | Some O =>
      match rest with
      | _ :: after =>
          let m := default 0 (PostCss.indexOf [")"] after) in
          ([TLinkTextClose; TLinkUrlOpen; TText (take m after); TLinkUrlClose], m + 2, None)
      | [] => ([TText [c]], 0, None)
      end
  | _ =>
      if ch_eqb c "\" then
        match visible with
        | d :: _ => ([TEscapedChar d], 1, advance 1)
        | [] => ([TText [c]], 0, advance 0)
        end
      else if ch_eqb c "*" || ch_eqb c "_" then
        match visible with
        | d :: _ =>
            if ch_eqb d c then ([TEmphasisMarker Double c], 1, advance 1)
            else ([TEmphasisMarker Single c], 0, advance 0)
        | [] => ([TEmphasisMarker Single c], 0, advance 0)
        end
      else if ch_eqb c BACKTICK then
        match PostCss.indexOf [BACKTICK] visible with
        | Some k => ([TCodeSpanMarker; TText (take k rest); TCodeSpanMarker], S k, advance (S k))
        | None => ([TText [c]], 0, advance 0)
        end
      else if ch_eqb c "[" then
        match inlink, link_ahead rest with
        | None, Some (n, _) => ([TLinkTextOpen], 0, Some n)
        | _, _ => ([TText [c]], 0, advance 0)
        end
      else ([TText [c]], 0, advance 0)
  end.

Fixpoint tokenize_go (skip : nat) (inlink : option nat) (s : jsstring) : list Token :=
  match s with
  | [] => []
  | c :: rest =>
      match skip with
      | S k => tokenize_go k inlink rest
      | O =>
          let '(tokens, n, inlink') := lex_step inlink c rest in
          tokens ++ tokenize_go n inlink' rest
      end
  end.

(** Adjacent literal characters form one text token. *)
Fixpoint coalesce (tokens : list Token) : list Token :=
  match tokens with
  | [] => []
  | t :: rest =>
      match t, coalesce rest with
      | TText a, TText b :: rest' => TText (a ++ b) :: rest'
      | _, r => t :: r
      end
  end.

(** Modelled from the spec: [tokenizeInlineMarkdown] of
    [./internal/markdown-tokenizer], which is not among the sources.  It
    follows section 4.1: a backslash escapes the next character; a run of
    one or two [*] or [_] is an emphasis marker; a backtick pair delimits an
    opaque code span; brackets are link tokens only when the bracketed text
    is immediately followed by a parenthesised URL; all else is text.
    Where the section is silent the model degrades to literal text. *)
Definition tokenizeInlineMarkdown (input : jsstring) : list Token :=
  coalesce (tokenize_go 0 None input).

(** *** Parser *)

(** An open span: its kind and the children gathered so far, last child
    first. *)
Inductive Frame : Type :=
  | FEmphasis (weight : Weight) (c : ascii) (kids : list Node)
  | FLink (kids : list Node).

Definition frame_kids (f : Frame) : list Node :=
  match f with
  | FEmphasis _ _ kids | FLink kids => kids
  end.

Definition with_kids (f : Frame) (kids : list Node) : Frame :=
  match f with
  | FEmphasis w c _ => FEmphasis w c kids
  | FLink _ => FLink kids
  end.

(** The characters a frame was opened by. *)
Definition marker_text (f : Frame) : jsstring :=
  match f with
  | FEmphasis Single c _ => [c]
  | FEmphasis Double c _ => [c; c]
  | FLink _ => js "["
  end.

(** Appends a node to a child list kept last child first; a text node
    extends a text node before it. *)
Definition add (n : Node) (kids : list Node) : list Node :=
  match n, kids with
  | Text s, Text t :: kids' => Text (t ++ s) :: kids'
  | _, _ => n :: kids
  end.

(** Appends the nodes [ns], given last first, to [kids]. *)
Definition add_all (ns : list Node) (kids : list Node) : list Node :=
  foldr add kids ns.

(** The literal form of an unmatched frame, appended to its parent's
    children: the marker characters, then the frame's children unwrapped. *)
Definition flush_frame (f : Frame) (parent : list Node) : list Node :=
  add_all (frame_kids f) (add (Text (marker_text f)) parent).

Record PState : Type := mkPState { root_kids : list Node; stack : list Frame }.

Definition add_node (n : Node) (st : PState) : PState :=
  match stack st with
  | [] => mkPState (add n (root_kids st)) []
  | f :: fs => mkPState (root_kids st) (with_kids f (add n (frame_kids f)) :: fs)
  end.

Definition push_frame (f : Frame) (st : PState) : PState :=
  mkPState (root_kids st) (f :: stack st).

(** Position in the stack of the innermost open emphasis of weight [w];
    the search does not leave the innermost link text. *)
Fixpoint find_emphasis (w : Weight) (fs : list Frame) : option nat :=
  match fs with
  | [] => None
  | FEmphasis w' _ _ :: fs' => if bool_decide (w' = w) then Some 0 else S <$> find_emphasis w fs'
  | FLink _ :: _ => None
  end.

Fixpoint find_link (fs : list Frame) : option nat :=
  match fs with
  | [] => None
  | FLink _ :: _ => Some 0
  | FEmphasis _ _ _ :: fs' => S <$> find_link fs'
  end.

(** Pops the [n] innermost frames, each flushed as literal text into the
    frame below it, and returns the frame then on top with the rest. *)
Fixpoint pop_to (n : nat) (fs : list Frame) : option (Frame * list Frame) :=
  match n, fs with
  | O, f :: fs' => Some (f, fs')
  | S n', f :: g :: fs' => pop_to n' (with_kids g (flush_frame f (frame_kids g)) :: fs')
  | _, _ => None
  end.

Definition element (tagName : jsstring) (properties : Properties) (kids : list Node) : Node :=
  element_node (Hastscript.h tagName properties [Hastscript.ChildArray (rev kids)]).

Definition emphasis_tag (w : Weight) : jsstring :=
  match w with
  | Single => js "em"
  | Double => js "strong"
  end.

Definition on_emphasis (w : Weight) (c : ascii) (st : PState) : PState :=
  match find_emphasis w (stack st) with
  | Some i =>
      match pop_to i (stack st) with
      | Some (f, fs) =>
          add_node (element (emphasis_tag w) ∅ (frame_kids f)) (mkPState (root_kids st) fs)
      | None => st
      end
  | None => push_frame (FEmphasis w c []) st
  end.

Definition on_link (url : jsstring) (st : PState) : option PState :=
  match find_link (stack st) with
  | Some i =>
      match pop_to i (stack st) with
      | Some (f, fs) =>
          Some (add_node (element (js "a") {[ js "href" := PVString url ]} (frame_kids f))
                  (mkPState (root_kids st) fs))
      | None => None
      end
  | None => None
  end.

(** The effect of a token that stands alone. *)
Definition step (token : Token) (st : PState) : PState :=
  match token with
  | TText s => add_node (Text s) st
  | TEscapedChar c => add_node (Text [c]) st
  | TEmphasisMarker w c => on_emphasis w c st
  | TLinkTextOpen => push_frame (FLink []) st
  | TCodeSpanMarker => add_node (Text [BACKTICK]) st
  | TLinkTextClose => add_node (Text (js "]")) st
  | TLinkUrlOpen => add_node (Text (js "(")) st
  | TLinkUrlClose => add_node (Text (js ")")) st
  end.

(** End of input: every frame still open is flushed, the outermost first,
    so that each marker is followed by what was opened inside it. *)
Fixpoint flush (kids : list Node) (fs : list Frame) : list Node :=
  match fs with
  | [] => kids
  | f :: fs' => flush_frame f (flush kids fs')
  end.

Definition finish (st : PState) : list Node := rev (flush (root_kids st) (stack st)).

Fixpoint parse_go (st : PState) (tokens : list Token) : list Node :=
  match tokens with
  | [] => finish st
  | token :: rest =>
      match token, rest with
      | TCodeSpanMarker, TText s :: TCodeSpanMarker :: rest' =>
          parse_go (add_node (element (js "code") ∅ [Text s]) st) rest'
      | TLinkTextClose, TLinkUrlOpen :: TText url :: TLinkUrlClose :: rest' =>
          match on_link url st with
          | Some st' => parse_go st' rest'
          | None => parse_go (step token st) rest
          end
      | _, _ => parse_go (step token st) rest
      end
  end.

(** *** Autolinks *)

(** The punctuation that is not taken as the end of a URL. *)
Definition is_trailing_punctuation (c : ascii) : bool := isIn c (js ".,;:!?)").

(** Length of the URL that starts at the head of [s], if one does. *)
Definition url_at (s : jsstring) : option nat :=
  let prefix :=
    if startsWith s (js "http://") then Some 7
    else if startsWith s (js "https://") then Some 8
    else None in
  match prefix with
  | None => None
  | Some p =>
      let run := take (run_length (fun c => negb (is_whitespace c)) s) s in
      let n := length (PostCss.drop_end_while is_trailing_punctuation run) in
      if (p <? n)%nat then Some n else None
  end.

Definition text_nodes (pending : jsstring) : list Node :=
  match pending with
  | [] => []
  | _ :: _ => [Text (rev pending)]
  end.

Definition link (url : jsstring) : Node :=
  element (js "a") {[ js "href" := PVString url ]} [Text url].

Fixpoint autolink_go (skip : nat) (pending : jsstring) (s : jsstring) : list Node :=
  match s with
  | [] => text_nodes pending
  | c :: rest =>
      match skip with
      | S k => autolink_go k pending rest
      | O =>
          match url_at s with
          | Some (S n) => text_nodes pending ++ link (take (S n) s) :: autolink_go n [] rest
          | _ => autolink_go 0 (c :: pending) rest
          end
      end
  end.

Fixpoint autolink_node (n : Node) : list Node :=
  match n with
  | Text s => autolink_go 0 [] s
  | ElementNode tagName properties kids =>
      [ElementNode tagName properties
         ((fix go (l : list Node) : list Node :=
             match l with
             | [] => []
             | k :: l' => autolink_node k ++ go l'
             end) kids)]
  end.

Definition autolink_nodes (nodes : list Node) : list Node :=
  flat_map autolink_node nodes.

(** Modelled from the spec: [inlineMarkdownTokensToHast] of
    [./internal/markdown-parser], which is not among the sources.  It
    follows section 4.2: one pass over the tokens with a stack of open
    spans; an emphasis marker closes the innermost open marker of its weight
    or opens a span; frames left open at the end of input are written back
    as the text of their marker followed by their children; a code span
    becomes a [code] element over its text; a link becomes an [a] element
    with an [href]; with [autolink], URLs in text nodes become links. *)
Definition inlineMarkdownTokensToHast (tokens : list Token) (autolink : bool) : Root :=
  let nodes := parse_go (mkPState [] []) tokens in
  mkRoot (if autolink then autolink_nodes nodes else nodes).

End Md.

(** ** [fromInlineMarkdown] *)

Record FromMarkdownOptions : Type := mkOptions {
  autolink : option bool;
  paragraphs : option bool
}.


Section FromInlineMarkdown.

Context {Token : Type}.
Variable tokenizeInlineMarkdown : jsstring → list Token.
Variable inlineMarkdownTokensToHast : list Token → bool → Root.

(** [fromInlineMarkdown], lines 180-195. *)
Definition fromInlineMarkdown (markdown : jsstring) (options : FromMarkdownOptions) : Root :=
  let paragraphs := default false (paragraphs options) in
  let autolink := default true (autolink options) in
  let markdown := replaceAll re_line_break [NEWLINE] markdown in
  let parts := if paragraphs then split re_blank_lines markdown else [markdown] in
  let content :=
    map (fun part =>
           let tokens := tokenizeInlineMarkdown (replaceAll re_newlines (js " ") part) in
           let root := inlineMarkdownTokensToHast tokens autolink in
           if paragraphs
           then Hastscript.ChildNode
                  (element_node (Hastscript.h (js "p") ∅ [Hastscript.ChildRoot root]))
           else Hastscript.ChildArray (root_children root))
        parts in
  Hastscript.h_root content.

End FromInlineMarkdown.

(** ** Class names *)

(** The separator of [s.split(' ')], a single space. *)
Definition sep_space : matcher := fun s =>
  match s with
  | c :: _ => if ch_eqb c SPACE then Some 1 else None
  | [] => None
  end.

(** The argument of [getClassNames]. *)
Inductive ClassesOrNode : Type :=
  | OfString (classes : jsstring)
  | OfArray (classes : list jsstring)
  | OfNode (node : Element).

(** [getClassNames], lines 38-43.  The falsy values of a property are
    [undefined], [null], [false] and the empty string. *)
Definition getClassNames (classesOrNode : ClassesOrNode) : list jsstring :=
  let stringOrArr :=
    match classesOrNode with
    | OfString classes => Some (PVString classes)
    | OfArray classes => Some (PVArray classes)
    | OfNode node => getProperty node (js "className")
    end in
  match stringOrArr with
  | None | Some PVNull | Some (PVBool _) | Some (PVString []) => []
  | Some (PVArray items) => items
  | Some (PVString s) => split sep_space s
  end.

(** [array.indexOf(x)]; [None] stands for [-1]. *)
Fixpoint Array_indexOf (array : list jsstring) (x : jsstring) : option nat :=
  match array with
  | [] => None
  | y :: array' => if str_eqb y x then Some 0 else S <$> Array_indexOf array' x
  end.

(** The second argument of [addClassNames]: [string | string[]]. *)
Inductive ClassNames : Type :=
  | ClassString (classes : jsstring)
  | ClassArray (classes : list jsstring).

Definition of_class_names (classNames : ClassNames) : ClassesOrNode :=
  match classNames with
  | ClassString classes => OfString classes
  | ClassArray classes => OfArray classes
  end.

(** The callback of [forEach] in [addClassNames]. *)
Definition push_new (combinedClassNames : list jsstring) (className : jsstring)
  : list jsstring :=
  match Array_indexOf combinedClassNames className with
  | None => combinedClassNames ++ [className]
  | Some _ => combinedClassNames
  end.

(** [addClassNames], lines 59-65. *)
Definition addClassNames (node : Element) (classNames : ClassNames) : Element :=
  let combinedClassNames := getClassNames (OfNode node) in
  let combinedClassNames :=
    fold_left push_new (getClassNames (of_class_names classNames)) combinedClassNames in
  setProperty node (js "className") (Some (PVArray combinedClassNames)).

(** [addClassName], lines 50-52. *)
Definition addClassName (node : Element) (className : jsstring) : Element :=
  addClassNames node (ClassString className).

(** [removeClassName], lines 72-78; [classNames.splice(index, 1)] deletes
    the item at [index]. *)
Definition removeClassName (node : Element) (className : jsstring) : Element :=
  let classNames := getClassNames (OfNode node) in
  match Array_indexOf classNames className with
  | None => node
  | Some index =>
      setProperty node (js "className") (Some (PVArray (base.delete index classNames)))
  end.

(** ** Vocabulary of the statements *)

(** An element whose only property is the [style] attribute [s]. *)
Definition styled (s : jsstring) : Element :=
  mkElement (js "div") (Some {[ js "style" := PVString s ]}) [].

(** Two elements that can not be told apart by their tag name, their
    children and the value of any property. *)
Definition same_element (a b : Element) : Prop :=
  tagName a = tagName b ∧ children a = children b
  ∧ ∀ name, getProperty a name = getProperty b name.

(** An element whose only property is the [className] array [classes]. *)
Definition classed (classes : list jsstring) : Element :=
  mkElement (js "div") (Some {[ js "className" := PVArray classes ]}) [].

(** A node without a [style] property, or whose [style] is a string of
    white space, possibly empty. *)
Definition blank_style (node : Element) : bool :=
  match getProperty node (js "style") with
  | None => true
  | Some (PVString s) => forallb is_whitespace s
  | Some _ => false
  end.

(** The style string written by [setInlineStyles]. *)
Definition serialize (styles : JsMap.t) : jsstring :=
  join (js ";")
    (map (fun '(prop, value) => PostCss.Declaration_toString prop value (js ":")) styles).

(** The declarations among the children of a root, in source order. *)
Definition declarations (nodes : list PostCss.ChildNode) : list (jsstring * jsstring) :=
  flat_map
    (fun node =>
       match node with
       | PostCss.Decl prop value _ => [(prop, value)]
       | _ => []
       end)
    nodes.

(** The map obtained from [m] by [set] for each declaration in turn. *)
Definition collect (nodes : list PostCss.ChildNode) (m : JsMap.t) : JsMap.t :=
  fold_left (fun m '(prop, value) => JsMap.set prop value m) (declarations nodes) m.

(** The callback of [root.each] in [getInlineStyles]. *)
Definition on_decl (node : PostCss.ChildNode) : Eff unit :=
  match node with
  | PostCss.Decl prop value _ => styles_set prop value
  | _ => eret tt
  end.

(** The names of [l], each at the place where it first occurs. *)
Fixpoint first_occurrences (l : list jsstring) : list jsstring :=
  match l with
  | [] => []
  | k :: l' => k :: filter (fun x => x ≠ k) (first_occurrences l')
  end.

(** The value of the last declaration of [prop]. *)
Fixpoint last_value (prop : jsstring) (decls : list (jsstring * jsstring))
  : option jsstring :=
  match decls with
  | [] => None
  | (k, v) :: decls' =>
      match last_value prop decls' with
      | Some v' => Some v'
      | None => if str_eqb k prop then Some v else None
      end
  end.





(** A character that the tokenizer of PostCSS reads as part of a word and
    that [trim] keeps. *)
Definition is_plain_char (c : ascii) : bool :=
  negb (is_whitespace c) && negb (PostCss.is_word_end_char c) && negb (ch_eqb c PostCss.SLASH).

Definition plain_word (s : jsstring) : bool := forallb is_plain_char s.

(** A property name made of plain characters that does not start with the
    underscore or asterisk of a browser hack. *)
Definition plain_name (s : jsstring) : bool :=
  match s with
  | c :: _ => plain_word s && negb (ch_eqb c "_") && negb (ch_eqb c "*")
  | [] => false
  end.

Definition plain_styles (m : JsMap.t) : bool :=
  forallb (fun '(k, v) => plain_name k && plain_word v) m.

(** The tokens of the style string written for a map of plain names and
    values. *)
Definition value_tokens (v : jsstring) : list PostCss.Token :=
  match v with
  | [] => []
  | _ :: _ => [PostCss.mkToken PostCss.TWord v]
  end.

Definition entry_tokens (e : jsstring * jsstring) : list PostCss.Token :=
  PostCss.mkToken PostCss.TWord e.1 :: PostCss.mkToken PostCss.TColon (js ":")
  :: value_tokens e.2.

Fixpoint style_tokens (m : JsMap.t) : list PostCss.Token :=
  match m with
  | [] => []
  | [e] => entry_tokens e
  | e :: rest => entry_tokens e ++ PostCss.mkToken PostCss.TSemicolon (js ";") :: style_tokens rest
  end.

(** The end of the input, or a character that ends a word. *)
Definition stops (tail : jsstring) : bool :=
  match tail with
  | [] => true
  | d :: _ => PostCss.is_word_end_char d
  end.

(** *** Declarations that survive the round trip

    A declaration is described by the tokens PostCSS reads its value as. *)

(** The first character of [s] that is not white space is not an
    exclamation mark. *)
Definition no_leading_bang (s : jsstring) : bool :=
  match trimStart s with
  | c :: _ => negb (ch_eqb c "!")
  | [] => true
  end.

(** A token that may occur in a value: a word, white space, a quoted
    string, a bracket group, an at-word, a parenthesis, a square bracket or
    a colon; not a comment, a semicolon or a curly bracket. *)
Definition value_token (t : PostCss.Token) : bool :=
  match PostCss.ttype t with
  | PostCss.TWord
  | PostCss.TSpace | PostCss.TString | PostCss.TBrackets | PostCss.TAtWord
  | PostCss.TOpenParen | PostCss.TCloseParen
  | PostCss.TOpenSquare | PostCss.TCloseSquare | PostCss.TColon => true
  | PostCss.TComment | PostCss.TSemicolon
  | PostCss.TOpenCurly | PostCss.TCloseCurly => false
  end.

(** The colons of the tokens pass [checkMissedSemicolon]: each one is
    inside parentheses or follows the word [progid]. *)
Definition colons_pass (tokens : list PostCss.Token) : bool :=
  match PostCss.colon 0 None tokens with
  | Ok false => true
  | _ => false
  end.

(** A custom property, for which the parser does not check the colons. *)
Definition custom_name (k : jsstring) : bool := startsWith k (js "--").

(** The tokens do not end in an [!important] annotation: the last token
    does not read [!important], and if it reads [important] no token after
    the first starts with an exclamation mark. *)
Definition important_free (tokens : list PostCss.Token) : bool :=
  match last tokens with
  | None => true
  | Some t =>
      let text := toLowerCase (PostCss.ttext t) in
      negb (str_eqb text (js "!important"))
      && (negb (str_eqb text (js "important"))
          || forallb (fun t => no_leading_bang (PostCss.ttext t)) (drop 1 tokens))
  end.

(** The brackets left open after [tokens], as [other] of the parser counts
    them: the closing brackets still expected, the innermost first. *)
Fixpoint open_brackets (stack : list PostCss.TokenType) (tokens : list PostCss.Token)
  : list PostCss.TokenType :=
  match tokens with
  | [] => stack
  | t :: rest =>
      match PostCss.closer (PostCss.ttype t) with
      | Some c => open_brackets (c :: stack) rest
      | None =>
          match stack with
          | b :: bs =>
              if bool_decide (PostCss.ttype t = b) then open_brackets bs rest
              else open_brackets stack rest
          | [] => open_brackets [] rest
          end
      end
  end.

Definition no_space_at (t : option PostCss.Token) : bool :=
  match t with
  | Some t => negb (PostCss.is_type PostCss.TSpace t)
  | None => true
  end.

(** A word made of an odd number of backslashes: the last of them escapes
    the character that follows the word. *)
Definition open_escape (t : PostCss.Token) : bool :=
  PostCss.is_type PostCss.TWord t
  && forallb (fun c => ch_eqb c PostCss.BACKSLASH) (PostCss.ttext t)
  && Nat.odd (length (PostCss.ttext t)).

Definition no_escape_at (t : option PostCss.Token) : bool :=
  match t with
  | Some t => negb (open_escape t)
  | None => true
  end.

(** The tokens of a value that is read back as it was written: each may
    occur in a value, the brackets are closed, the first and the last are
    not white space, and they end neither in an [!important] annotation nor
    in an odd number of backslashes. *)
Definition value_tokens_ok (tokens : list PostCss.Token) : bool :=
  forallb value_token tokens
  && bool_decide (open_brackets [] tokens = [])
  && no_space_at (head tokens) && no_space_at (last tokens)
  && important_free tokens
  && no_escape_at (last tokens).

(** The tokens of the value of the declaration [k:v]: the tokenizer reads
    them with the name on its buffer of words. *)
Definition tokens_of_value (k v : jsstring) : list PostCss.Token :=
  match PostCss.tokenize_go [k] 0 v with
  | Ok tokens => tokens
  | Throw _ => []
  end.

(** A declaration that is read back as it was written: the name is plain,
    the tokenizer accepts the value, its tokens are those of a value that is
    read back, its colons pass the check of the parser unless the name is
    that of a custom property, and its last character is not white space.
    The empty value is read back. *)
Definition round_trip_entry (e : jsstring * jsstring) : bool :=
  plain_name e.1
  && match PostCss.tokenize_go [e.1] 0 e.2 with
     | Ok tokens => value_tokens_ok tokens && (custom_name e.1 || colons_pass tokens)
     | Throw _ => false
     end
  && match last e.2 with
     | Some d => negb (is_whitespace d)
     | None => true
     end.

(** *** The buffer of words of the tokenizer *)

Definition is_paren (t : PostCss.Token) : bool :=
  PostCss.is_type PostCss.TBrackets t || PostCss.is_type PostCss.TOpenParen t.

(** A word that the tokenizer puts on its buffer: one that does not start
    with a backslash. *)
Definition buffered (t : PostCss.Token) : bool :=
  PostCss.is_type PostCss.TWord t
  && match PostCss.ttext t with
     | c :: _ => negb (ch_eqb c PostCss.BACKSLASH)
     | [] => true
     end.

(** The buffer after a token: a word is put on it unless it starts with a
    backslash, an opening parenthesis takes the last word off. *)
Definition buffer_step (buffer : list jsstring) (t : PostCss.Token) : list jsstring :=
  if buffered t then PostCss.ttext t :: buffer
  else if is_paren t then tl buffer
  else buffer.

Definition words_left (buffer : list jsstring) (tokens : list PostCss.Token)
  : list jsstring :=
  fold_left buffer_step tokens buffer.

Definition not_url (word : jsstring) : bool := negb (str_eqb word (js "url")).

(** The declaration leaves no word [url] on the buffer. *)
Definition leaves_no_url (e : jsstring * jsstring) : bool :=
  forallb not_url (words_left [e.1] (tokens_of_value e.1 e.2)).

(** Every opening parenthesis of [tokens] finds a word on [buffer]. *)
Fixpoint parens_served (buffer : list jsstring) (tokens : list PostCss.Token) : bool :=
  match tokens with
  | [] => true
  | t :: rest =>
      (negb (is_paren t) || match buffer with [] => false | _ :: _ => true end)
      && parens_served (buffer_step buffer t) rest
  end.

(** Every opening parenthesis of the declaration follows a word of the
    declaration that no earlier parenthesis has taken. *)
Definition serves_parens (e : jsstring * jsstring) : bool :=
  parens_served [e.1] (tokens_of_value e.1 e.2).

(** A map whose declarations are read back as they were written: each of
    them is, and a parenthesis of one declaration never finds the word
    [url] of another: either no declaration leaves that word on the buffer
    or every parenthesis finds a word of its own declaration. *)
Definition round_trip_styles (m : JsMap.t) : bool :=
  forallb round_trip_entry m
  && (forallb leaves_no_url m || forallb serves_parens m).






(** The round trip on one map, as a test. *)
Definition reads_back (m : JsMap.t) : bool :=
  match getInlineStyles PostCss.parse (setInlineStyles (styled []) m) with
  | Ok m' => bool_decide (m' = m)
  | Throw _ => false
  end.

(** Partial tolerance as the specification states it: a malformed
    declaration in a list of valid ones is left out and the others are
    kept. *)
Definition valid_declaration (d : jsstring) : Prop :=
  ∃ prop value important, PostCss.parse d = Ok [PostCss.Decl prop value important].

Definition malformed_declaration (d : jsstring) : Prop :=
  ∃ e, PostCss.parse d = Throw e.

Definition partial_tolerance : Prop :=
  ∀ before bad after,
    Forall valid_declaration (before ++ after) → malformed_declaration bad →
    getInlineStyles PostCss.parse (styled (join (js ";") (before ++ bad :: after)))
    = getInlineStyles PostCss.parse (styled (join (js ";") (before ++ after))).


Definition starts_with_newline (s : jsstring) : bool :=
  match s with
  | c :: _ => is_newline c
  | [] => false
  end.

(** Whether a newline of [s] has a character of horizontal white space
    right before or right after it. *)
Definition touches_break (a b : ascii) : bool :=
  is_hspace a && is_newline b || is_newline a && is_hspace b.

Fixpoint padded_break (s : jsstring) : bool :=
  match s with
  | a :: (b :: _) as rest => touches_break a b || padded_break rest
  | _ => false
  end.

(** Whether [re_line_break] matches at the start of [s]. *)
Definition starts_break (s : jsstring) : bool :=
  match re_line_break s with
  | Some (S _) => true
  | _ => false
  end.


(** [h('p', root)] as a node. *)
Definition paragraph (root : Root) : Node :=
  ElementNode (js "p") (Some ∅) (root_children root).





Definition is_paragraph (n : Node) : bool :=
  match n with
  | Text _ => false
  | ElementNode tagName _ _ => str_eqb tagName (js "p")
  end.

(** A node other than a [p] element, and a parser state whose nodes are
    all of this kind. *)
Definition plain (n : Node) : Prop := is_paragraph n = false.



(** [fromInlineMarkdown] with the tokenizer and the parser of this file. *)
Definition fromInlineMarkdown_md (markdown : jsstring) (options : FromMarkdownOptions) : Root :=
  fromInlineMarkdown Md.tokenizeInlineMarkdown Md.inlineMarkdownTokensToHast markdown options.

(** * Properties *)

(** ** Strings *)

Lemma ch_eqb_eq (a b : ascii) : ch_eqb a b = true ↔ a = b.
Proof. unfold ch_eqb. apply Ascii.eqb_eq. Qed.

Lemma ch_eqb_refl (a : ascii) : ch_eqb a a = true.
Proof. by apply ch_eqb_eq. Qed.

Lemma ch_eqb_neq (a b : ascii) : ch_eqb a b = false ↔ a ≠ b.
Proof. unfold ch_eqb. apply Ascii.eqb_neq. Qed.

Lemma str_eqb_eq (a b : jsstring) : str_eqb a b = true ↔ a = b.
Proof. unfold str_eqb. apply bool_decide_eq_true. Qed.

Lemma str_eqb_neq (a b : jsstring) : str_eqb a b = false ↔ a ≠ b.
Proof. unfold str_eqb. apply bool_decide_eq_false. Qed.

Lemma str_eqb_refl (a : jsstring) : str_eqb a a = true.
Proof. by apply str_eqb_eq. Qed.

Lemma trimStart_whitespace (s : jsstring) :
  forallb is_whitespace s = true → trimStart s = [].
Proof.
  induction s as [|c s IH]; simpl; [done|].
  intros [Hc Hs]%andb_prop. rewrite Hc. auto.
Qed.

Lemma trim_whitespace (s : jsstring) : forallb is_whitespace s = true → trim s = [].
Proof. intros H. unfold trim, trimEnd. by rewrite (trimStart_whitespace s H). Qed.

(** ** Maps *)

Module JsMapFacts.
Import JsMap.

Lemma get_set_eq k v m : get k (set k v m) = Some v.
Proof.
  induction m as [|[k' v'] m IH]; simpl.
  - by rewrite str_eqb_refl.
  - destruct (str_eqb k' k) eqn:E; simpl.
    + by rewrite str_eqb_refl.
    + by rewrite E.
Qed.

Lemma get_set_ne k k' v m : k ≠ k' → get k' (set k v m) = get k' m.
Proof.
  intros Hne. induction m as [|[k0 v0] m IH]; simpl.
  - by apply str_eqb_neq in Hne as ->.
  - destruct (str_eqb k0 k) eqn:E; simpl.
    + apply str_eqb_eq in E as ->. by apply str_eqb_neq in Hne as ->.
    + by rewrite IH.
Qed.

Lemma keys_set k v m :
  keys (set k v m) = if decide (k ∈ keys m) then keys m else keys m ++ [k].
Proof.
  unfold keys. induction m as [|[k' v'] m IH]; [done|]. cbn [set].
  destruct (str_eqb k' k) eqn:E; cbn [map fst].
  - apply str_eqb_eq in E as ->. rewrite decide_True; [done|]. apply elem_of_cons. by left.
  - apply str_eqb_neq in E. rewrite IH.
    destruct (decide (k ∈ map fst m)) as [Hin|Hin].
    + rewrite decide_True; [done|]. apply elem_of_cons. by right.
    + rewrite decide_False; [done|]. intros [->|Hin']%elem_of_cons; done.
Qed.

Lemma wf_nil : wf [].
Proof. apply NoDup_nil_2. Qed.

Lemma wf_set k v m : wf m → wf (set k v m).
Proof.
  unfold wf. intros Hwf. rewrite keys_set. case_decide; [done|].
  apply NoDup_app. split_and!; [done| |apply NoDup_singleton].
  intros x Hx ->%list_elem_of_singleton. done.
Qed.

Lemma get_None k m : get k m = None ↔ k ∉ keys m.
Proof.
  induction m as [|[k' v'] m IH]; simpl.
  - split; [intros _; apply not_elem_of_nil|done].
  - destruct (str_eqb k' k) eqn:E.
    + apply str_eqb_eq in E as ->. split; [done|]. intros []. apply list_elem_of_here.
    + apply str_eqb_neq in E. rewrite IH, elem_of_cons. split.
      * intros Hn [->|Hin]; done.
      * intros Hn Hin. apply Hn. by right.
Qed.

Lemma keys_delete k m : wf m → k ∉ keys (delete k m).
Proof.
  unfold wf. induction m as [|[k' v'] m IH]; simpl.
  - intros _. apply not_elem_of_nil.
  - intros [Hk' Hm]%NoDup_cons. destruct (str_eqb k' k) eqn:E; simpl.
    + by apply str_eqb_eq in E as <-.
    + apply str_eqb_neq in E. intros [->|Hin]%elem_of_cons; [done|]. by apply IH.
Qed.

(** Setting every entry of a well-formed map, in order, gives the map back. *)
Lemma fold_set_id (m acc : t) :
  wf (acc ++ m) → fold_left (fun a '(k, v) => set k v a) m acc = acc ++ m.
Proof.
  revert acc. induction m as [|[k v] m IH]; intros acc Hwf; simpl.
  - by rewrite app_nil_r.
  - assert (set k v acc = acc ++ [(k, v)]) as ->.
    { assert (k ∉ keys acc) as Hk.
      { unfold wf, keys in Hwf. rewrite map_app in Hwf.
        apply NoDup_app in Hwf as (_ & Hdis & _). intros Hin.
        apply (Hdis k Hin). simpl. apply list_elem_of_here. }
      clear -Hk. induction acc as [|[k' v'] acc IH]; simpl; [done|].
      unfold keys in Hk. simpl in Hk. apply not_elem_of_cons in Hk as [Hne Hk].
      assert (str_eqb k' k = false) as -> by (apply str_eqb_neq; congruence).
      by rewrite IH. }
    rewrite IH; rewrite <- app_assoc; done.
Qed.

End JsMapFacts.

(** ** Properties of an element *)

Lemma getProperty_setProperty_eq node name value :
  getProperty (setProperty node name value) name = value.
Proof.
  unfold getProperty, setProperty. cbn [properties].
  destruct value as [v|]; [apply lookup_insert_eq|apply lookup_delete_eq].
Qed.

Lemma getProperty_setProperty_ne node name name' value :
  name ≠ name' →
  getProperty (setProperty node name value) name' = getProperty node name'.
Proof.
  intros Hne. unfold getProperty, setProperty. cbn [properties].
  destruct value as [v|].
  - rewrite lookup_insert_ne by done. by destruct (properties node).
  - rewrite lookup_delete_ne by done. by destruct (properties node).
Qed.

(** ** Inline styles *)

Section InlineStyleFacts.

Variable parse : jsstring → result (list PostCss.ChildNode).

Lemma each_collect nodes h :
  each nodes on_decl h = (Ok tt, mkHeap (collect nodes (styles h)) (parsed h)).
Proof.
  revert h. induction nodes as [|n nodes IH]; intros [m log].
  - done.
  - cbn [each]. unfold ebind at 1.
    destruct n; cbn [on_decl styles_set eret]; rewrite IH; reflexivity.
Qed.

Lemma getInlineStyles_run_eq node :
  getInlineStyles_run parse node =
    match styleString node with
    | [] => (Ok [], mkHeap [] [])
    | c :: s =>
        match parse (c :: s) with
        | Ok nodes => (Ok (collect nodes []), mkHeap (collect nodes []) [c :: s])
        | Throw _ => (Ok [], mkHeap [] [c :: s])
        end
    end.
Proof.
  unfold getInlineStyles_run, getInlineStyles_body.
  destruct (styleString node) as [|c s]; [done|].
  unfold ebind, try_catch, postcss_parse_eff. cbn [styles parsed app].
  destruct (parse (c :: s)) as [nodes|e]; [|reflexivity].
  change (fun node0 : PostCss.ChildNode =>
            match node0 with
            | PostCss.Decl prop value _ => styles_set prop value
            | _ => eret tt
            end) with on_decl.
  rewrite each_collect. reflexivity.
Qed.

Lemma getInlineStyles_eq node :
  getInlineStyles parse node =
    Ok match styleString node with
       | [] => []
       | c :: s =>
           match parse (c :: s) with
           | Ok nodes => collect nodes []
           | Throw _ => []
           end
       end.
Proof.
  unfold getInlineStyles. rewrite getInlineStyles_run_eq.
  destruct (styleString node) as [|c s]; [reflexivity|]. destruct (parse (c :: s)); reflexivity.
Qed.

End InlineStyleFacts.

Module CollectFacts.
Import JsMap JsMapFacts.

Lemma filter_all {A} (P : A → Prop) `{∀ x, Decision (P x)} (l : list A) :
  (∀ x, P x) → filter P l = l.
Proof.
  intros HP. induction l as [|x l IH]; [done|].
  rewrite filter_cons_True by done. by rewrite IH.
Qed.

Lemma keys_fold_set decls acc :
  keys (fold_left (fun m '(prop, value) => set prop value m) decls acc)
  = keys acc ++ filter (fun k => k ∉ keys acc) (first_occurrences (map fst decls)).
Proof.
  revert acc. induction decls as [|[k v] decls IH]; intros acc.
  - cbn. by rewrite app_nil_r.
  - cbn [fold_left map fst first_occurrences]. rewrite IH, keys_set.
    destruct (decide (k ∈ keys acc)) as [Hin|Hin].
    + rewrite filter_cons_False by (intros Hn; by apply Hn).
      rewrite list_filter_filter. f_equal. apply list_filter_iff.
      intros x. split; [|tauto]. intros Hx. split; [done|]. by intros ->.
    + rewrite filter_cons_True by done.
      rewrite list_filter_filter, <- app_assoc. cbn [app]. do 2 f_equal.
      apply list_filter_iff. intros x.
      rewrite elem_of_app, list_elem_of_singleton. tauto.
Qed.

Lemma get_fold_set prop decls acc :
  get prop (fold_left (fun m '(prop, value) => set prop value m) decls acc)
  = match last_value prop decls with
    | Some v => Some v
    | None => get prop acc
    end.
Proof.
  revert acc. induction decls as [|[k v] decls IH]; intros acc; [done|].
  cbn [fold_left last_value]. rewrite IH.
  destruct (last_value prop decls) as [v'|]; [done|].
  destruct (str_eqb k prop) eqn:E.
  - apply str_eqb_eq in E as ->. apply get_set_eq.
  - apply str_eqb_neq in E. by apply get_set_ne.
Qed.

Lemma wf_fold_set decls acc :
  wf acc → wf (fold_left (fun m '(prop, value) => set prop value m) decls acc).
Proof.
  revert acc. induction decls as [|[k v] decls IH]; intros acc Hwf; [done|].
  cbn [fold_left]. by apply IH, wf_set.
Qed.

Lemma keys_collect nodes :
  keys (collect nodes []) = first_occurrences (map fst (declarations nodes)).
Proof.
  unfold collect. rewrite keys_fold_set. cbn [keys map app].
  apply filter_all. intros x. apply not_elem_of_nil.
Qed.

Lemma get_collect prop nodes :
  get prop (collect nodes []) = last_value prop (declarations nodes).
Proof.
  unfold collect. rewrite get_fold_set. by destruct (last_value _ _).
Qed.

Lemma wf_collect nodes : wf (collect nodes []).
Proof. apply wf_fold_set, wf_nil. Qed.

End CollectFacts.

(** C7: [getInlineStyles] returns a map for every parser behaviour and every
    node, and when the parse of the style string throws, the map returned is
    empty. *)
Theorem getInlineStyles_never_throws
    (parse : jsstring → result (list PostCss.ChildNode)) (node : Element) :
  (∃ m, getInlineStyles parse node = Ok m)
  ∧ (∀ e, parse (styleString node) = Throw e → getInlineStyles parse node = Ok []).
Proof.
  rewrite getInlineStyles_eq. split; [eauto|].
  intros e He. destruct (styleString node); [done|]. by rewrite He.
Qed.

Lemma getInlineStyles_never_throws_witness :
  PostCss.parse (js "not a style !!") = Throw (CssSyntaxError "Unknown word")
  ∧ getInlineStyles PostCss.parse (styled (js "not a style !!")) = Ok [].
Proof.
  split; [vm_compute; reflexivity|].
  apply (proj2 (getInlineStyles_never_throws PostCss.parse (styled (js "not a style !!")))
           (CssSyntaxError "Unknown word")).
  vm_compute. reflexivity.
Defined.

(** C9: on a node without a [style] property, or whose [style] is an empty
    or whitespace-only string, [getInlineStyles] returns the empty map and
    [postcss.parse] is not called. *)
Theorem getInlineStyles_blank_style
    (parse : jsstring → result (list PostCss.ChildNode)) (node : Element) :
  blank_style node = true →
  getInlineStyles_run parse node = (Ok [], mkHeap [] []).
Proof.
  intros Hblank. rewrite getInlineStyles_run_eq.
  assert (styleString node = []) as ->; [|done].
  unfold blank_style in Hblank. unfold styleString.
  destruct (getProperty node (js "style")) as [[s|items|b|]|]; try done.
  cbn [toString]. by apply trim_whitespace.
Qed.

Lemma getInlineStyles_blank_style_witness :
  getInlineStyles_run PostCss.parse (styled [SPACE; TAB; NEWLINE]) = (Ok [], mkHeap [] []).
Proof. apply getInlineStyles_blank_style. vm_compute. reflexivity. Defined.

(** C10: [setInlineStyle] returns normally, and the node it leaves differs
    from the one it was given in the [style] property at most: the tag name,
    the children and every other property are the same. *)
Theorem setInlineStyle_frame
    (parse : jsstring → result (list PostCss.ChildNode))
    (serializeCssStringValue : jsstring → jsstring)
    (node : Element) (cssProperty : jsstring) (value : option jsstring)
    (valueFormat : ValueFormat) :
  ∃ node',
    setInlineStyle parse serializeCssStringValue node cssProperty value valueFormat = Ok node'
    ∧ tagName node' = tagName node
    ∧ children node' = children node
    ∧ ∀ name, str_eqb name (js "style") = false →
        getProperty node' name = getProperty node name.
Proof.
  unfold setInlineStyle. rewrite getInlineStyles_eq. cbn [rbind].
  eexists. split; [reflexivity|]. split_and!; [done..|].
  intros name Hne%str_eqb_neq. unfold setInlineStyles.
  by apply getProperty_setProperty_ne.
Qed.

Lemma setInlineStyle_frame_witness :
  let node := mkElement (js "span") (Some {[ js "id" := PVString (js "x") ]}) [Text (js "t")] in
  ∃ node',
    setInlineStyle PostCss.parse id node (js "color") (Some (js "red")) FormatRaw = Ok node'
    ∧ getProperty node' (js "id") = getProperty node (js "id").
Proof.
  intros node.
  destruct (setInlineStyle_frame PostCss.parse id node (js "color") (Some (js "red")) FormatRaw)
    as (node' & Hrun & _ & _ & Hframe).
  exists node'. split; [exact Hrun|]. apply Hframe. vm_compute. reflexivity.
Defined.

(** C3, as stated: the style string [a:1;bad;b:2] is a list of valid
    declarations with one malformed declaration in it; PostCSS rejects it as
    a whole, and [getInlineStyles] returns the empty map, not the two
    declarations that are well formed. *)
Lemma partial_tolerance_fails : ¬ partial_tolerance.
Proof.
  intros Htol.
  specialize (Htol [js "a:1"] (js "bad") [js "b:2"]).
  assert (getInlineStyles PostCss.parse (styled (js "a:1;bad;b:2"))
          = getInlineStyles PostCss.parse (styled (js "a:1;b:2"))) as Heq.
  { apply Htol.
    - repeat constructor.
      + exists (js "a"), (js "1"), false. vm_compute. reflexivity.
      + exists (js "b"), (js "2"), false. vm_compute. reflexivity.
    - exists (CssSyntaxError "Unknown word"). vm_compute. reflexivity. }
  vm_compute in Heq. discriminate Heq.
Qed.

(** C3, amended: the parse is all or nothing.  When PostCSS accepts the
    style string, the map holds the declarations among the children of the
    root, and the other children (comments, rules, at-rules) are passed
    over; when PostCSS throws, whatever the place of the error, the map is
    empty. *)
Theorem getInlineStyles_all_or_nothing
    (parse : jsstring → result (list PostCss.ChildNode)) (node : Element) :
  styleString node ≠ [] →
  (∀ nodes, parse (styleString node) = Ok nodes →
     getInlineStyles_run parse node
     = (Ok (collect nodes []), mkHeap (collect nodes []) [styleString node]))
  ∧ (∀ e, parse (styleString node) = Throw e →
       getInlineStyles_run parse node = (Ok [], mkHeap [] [styleString node])).
Proof.
  intros Hne. rewrite getInlineStyles_run_eq.
  destruct (styleString node) as [|c s]; [done|].
  split; [intros nodes ->|intros e ->]; reflexivity.
Qed.

Lemma getInlineStyles_all_or_nothing_witness :
  getInlineStyles_run PostCss.parse (styled (js "a:1;bad;b:2"))
  = (Ok [], mkHeap [] [js "a:1;bad;b:2"]).
Proof.
  refine (proj2 (getInlineStyles_all_or_nothing PostCss.parse (styled (js "a:1;bad;b:2")) _)
            (CssSyntaxError "Unknown word") _).
  - vm_compute. discriminate.
  - vm_compute. reflexivity.
Defined.

(** C4: when PostCSS accepts the style string, the keys of the map are the
    property names of the declarations, each once and at the place of its
    first occurrence, and the value of a key is the value of its last
    declaration.  The string [a:1;b:2;a:3] gives [a -> 3, b -> 2], in this
    order. *)
Theorem getInlineStyles_duplicate_policy :
  (∀ (parse : jsstring → result (list PostCss.ChildNode)) node nodes,
     styleString node ≠ [] → parse (styleString node) = Ok nodes →
     ∃ m, getInlineStyles parse node = Ok m
        ∧ JsMap.keys m = first_occurrences (map fst (declarations nodes))
        ∧ (∀ prop, JsMap.get prop m = last_value prop (declarations nodes))
        ∧ NoDup (JsMap.keys m))
  ∧ getInlineStyles PostCss.parse (styled (js "a:1;b:2;a:3"))
    = Ok [(js "a", js "3"); (js "b", js "2")].
Proof.
  split; [|vm_compute; reflexivity].
  intros parse node nodes Hne Hparse. rewrite getInlineStyles_eq.
  destruct (styleString node) as [|c s]; [done|]. rewrite Hparse.
  eexists. split; [reflexivity|]. split_and!.
  - apply CollectFacts.keys_collect.
  - intros prop. apply CollectFacts.get_collect.
  - apply CollectFacts.wf_collect.
Qed.

Lemma getInlineStyles_duplicate_policy_witness :
  ∃ m, getInlineStyles PostCss.parse (styled (js "a:1;b:2;a:3")) = Ok m
     ∧ JsMap.keys m = [js "a"; js "b"]
     ∧ JsMap.get (js "a") m = Some (js "3").
Proof.
  destruct (proj1 getInlineStyles_duplicate_policy PostCss.parse (styled (js "a:1;b:2;a:3"))
              [PostCss.Decl (js "a") (js "1") false; PostCss.Decl (js "b") (js "2") false;
               PostCss.Decl (js "a") (js "3") false])
    as (m & Hm & Hkeys & Hget & _).
  - vm_compute. discriminate.
  - vm_compute. reflexivity.
  - exists m. split; [exact Hm|]. split; [exact Hkeys|]. exact (Hget (js "a")).
Defined.

(** ** The round trip through PostCSS *)

Module RoundTrip.
Import PostCss.

Lemma plain_char_facts c :
  is_plain_char c = true →
  is_whitespace c = false ∧ is_word_end_char c = false ∧ is_css_space c = false
  ∧ control_type c = None ∧ ch_eqb c OPEN_PARENTHESES = false
  ∧ ch_eqb c SINGLE_QUOTE = false ∧ ch_eqb c DOUBLE_QUOTE = false
  ∧ ch_eqb c AT = false ∧ ch_eqb c BACKSLASH = false ∧ ch_eqb c SLASH = false
  ∧ ch_eqb ":" c = false ∧ lower c ≠ "!".
Proof.
  destruct c as [[] [] [] [] [] [] [] []]; vm_compute; intros H;
    first [discriminate H | repeat split; discriminate].
Qed.

Lemma word_run_plain w tail :
  plain_word w = true → stops tail = true → word_run (w ++ tail) = length w.
Proof.
  intros Hw Htail. induction w as [|c w IH].
  - destruct tail as [|d tail]; [done|]. cbn in *. by rewrite Htail.
  - cbn in Hw. apply andb_prop in Hw as [Hc Hw].
    apply plain_char_facts in Hc as (_ & He & _ & _ & _ & _ & _ & _ & _ & Hs & _).
    cbn [app word_run length]. rewrite He, Hs. cbn [andb]. by rewrite IH.
Qed.

Lemma tokenize_go_skip buffer w tail :
  tokenize_go buffer (length w) (w ++ tail) = tokenize_go buffer 0 tail.
Proof. induction w as [|c w IH]; [by destruct tail|]. exact IH. Qed.

Lemma nextToken_plain buffer c rest :
  is_plain_char c = true →
  nextToken buffer c rest
  = Ok (mkToken TWord (c :: take (word_run rest) rest),
        (c :: take (word_run rest) rest) :: buffer, word_run rest).
Proof.
  intros (_ & _ & Hsp & Hct & Hop & Hsq & Hdq & Hat & Hbs & Hsl & _)%plain_char_facts.
  unfold nextToken. rewrite Hsp, Hct, Hop, Hsq, Hdq, Hat, Hbs, Hsl. reflexivity.
Qed.

Lemma tokenize_go_word buffer c w tail :
  plain_word (c :: w) = true → stops tail = true →
  tokenize_go buffer 0 ((c :: w) ++ tail)
  = rmap (cons (mkToken TWord (c :: w))) (tokenize_go ((c :: w) :: buffer) 0 tail).
Proof.
  intros Hw Htail. cbn in Hw. apply andb_prop in Hw as [Hc Hw].
  cbn [app tokenize_go]. rewrite nextToken_plain by done.
  rewrite word_run_plain by done. rewrite take_app_length.
  by rewrite tokenize_go_skip.
Qed.

Lemma tokenize_go_value buffer v tail :
  plain_word v = true → stops tail = true →
  ∃ buffer',
    tokenize_go buffer 0 (v ++ tail)
    = rmap (app (value_tokens v)) (tokenize_go buffer' 0 tail).
Proof.
  intros Hv Htail. destruct v as [|c v].
  - exists buffer. cbn. by destruct (tokenize_go buffer 0 tail).
  - eexists. rewrite tokenize_go_word by done. reflexivity.
Qed.

Lemma tokenize_go_entry buffer k v tail :
  plain_name k = true → plain_word v = true → stops tail = true →
  ∃ buffer',
    tokenize_go buffer 0 (Declaration_toString k v (js ":") ++ tail)
    = rmap (app (entry_tokens (k, v))) (tokenize_go buffer' 0 tail).
Proof.
  intros Hk Hv Htail. destruct k as [|c k]; [done|].
  cbn in Hk. apply andb_prop in Hk as [[Hk _]%andb_prop _].
  unfold Declaration_toString. rewrite <- !app_assoc.
  rewrite tokenize_go_word by done.
  destruct (tokenize_go_value ((c :: k) :: buffer) v tail Hv Htail) as [buffer' Hvalue].
  exists buffer'. cbn [js list_ascii_of_string app].
  change (tokenize_go ((c :: k) :: buffer) 0 (":" :: v ++ tail))
    with (rmap (cons (mkToken TColon (js ":"))) (tokenize_go ((c :: k) :: buffer) 0 (v ++ tail))).
  rewrite Hvalue. by destruct (tokenize_go buffer' 0 tail).
Qed.

Lemma tokenizer_serialize m buffer :
  plain_styles m = true → tokenize_go buffer 0 (serialize m) = Ok (style_tokens m).
Proof.
  revert buffer. induction m as [|[k v] m IH]; intros buffer Hm; [done|].
  cbn in Hm. apply andb_prop in Hm as [[Hk Hv]%andb_prop Hm].
  destruct m as [|e m].
  - destruct (tokenize_go_entry buffer k v [] Hk Hv eq_refl) as [buffer' Hentry].
    rewrite app_nil_r in Hentry. unfold serialize. cbn [map join style_tokens].
    rewrite Hentry. cbn. by rewrite app_nil_r.
  - destruct (tokenize_go_entry buffer k v (js ";" ++ serialize (e :: m)) Hk Hv eq_refl)
      as [buffer' Hentry].
    change (serialize ((k, v) :: e :: m))
      with (Declaration_toString k v (js ":") ++ js ";" ++ serialize (e :: m)).
    rewrite Hentry.
    change (tokenize_go buffer' 0 (js ";" ++ serialize (e :: m)))
      with (rmap (cons (mkToken TSemicolon (js ";"))) (tokenize_go buffer' 0 (serialize (e :: m)))).
    rewrite IH by done. reflexivity.
Qed.

Lemma is_type_mk t t' s : is_type t (mkToken t' s) = bool_decide (t' = t).
Proof. reflexivity. Qed.

Lemma strip_hack_plain k : plain_name k = true → strip_hack k = k.
Proof.
  destruct k as [|c k]; [done|]. cbn.
  intros [[_ H1%negb_true_iff]%andb_prop H2%negb_true_iff]%andb_prop.
  by rewrite H1, H2.
Qed.

Lemma texts_singleton t s : texts [mkToken t s] = s.
Proof. unfold texts. cbn. apply app_nil_r. Qed.

Lemma raw_word v custom : raw [mkToken TWord v] custom = v.
Proof. reflexivity. Qed.

Lemma includes_colon_plain v : plain_word v = true → includes v (js ":") = false.
Proof.
  induction v as [|c v IH]; [done|]. cbn [plain_word forallb].
  intros [Hc Hv]%andb_prop.
  apply plain_char_facts in Hc as (_ & _ & _ & _ & _ & _ & _ & _ & _ & _ & Hc & _).
  cbn [includes js list_ascii_of_string startsWith]. rewrite Hc. cbn [andb orb]. by apply IH.
Qed.

Lemma not_bang_important c v :
  is_plain_char c = true → str_eqb (toLowerCase (c :: v)) (js "!important") = false.
Proof.
  intros Hc. apply str_eqb_neq. intros [= Hl _].
  by apply plain_char_facts in Hc as (_ & _ & _ & _ & _ & _ & _ & _ & _ & _ & _ & Hne).
Qed.

#[local] Arguments includes : simpl never.
#[local] Arguments raw : simpl never.
#[local] Arguments texts : simpl never.
#[local] Arguments strip_hack : simpl never.
#[local] Arguments toLowerCase : simpl never.
#[local] Arguments str_eqb : simpl never.

Ltac tokens_simpl :=
  unfold is_space_or_comment, is_prop_end; repeat (rewrite ?is_type_mk; simpl).

Lemma decl_entry k v custom tail :
  plain_name k = true → plain_word v = true →
  tail = [] ∨ tail = [mkToken TSemicolon (js ";")] →
  decl (entry_tokens (k, v) ++ tail) custom = Ok (Decl k v false).
Proof.
  intros Hk Hv Htail. unfold decl, entry_tokens. cbn [fst snd].
  destruct v as [|c v]; cbn [value_tokens].
  - destruct Htail as [-> | ->]; simpl; tokens_simpl;
      by rewrite texts_singleton, strip_hack_plain.
  - destruct Htail as [-> | ->]; simpl; tokens_simpl;
      (rewrite not_bang_important by (by apply andb_prop in Hv as [? _]));
      destruct (str_eqb (toLowerCase (c :: v)) _); simpl; tokens_simpl;
      rewrite raw_word, includes_colon_plain by done; simpl;
      by rewrite texts_singleton, strip_hack_plain.
Qed.

Lemma other_scan_end custom k v :
  other_scan custom [] [] false (entry_tokens (k, v))
  = ExitBreak (entry_tokens (k, v)) [] true true.
Proof. destruct v, custom; reflexivity. Qed.

Lemma other_scan_semicolon custom k v more :
  other_scan custom [] [] false (entry_tokens (k, v) ++ mkToken TSemicolon (js ";") :: more)
  = ExitDecl (entry_tokens (k, v) ++ [mkToken TSemicolon (js ";")]).
Proof. destruct v, custom; reflexivity. Qed.

Lemma drop_end_entry k v :
  drop_end_while is_space_or_comment (entry_tokens (k, v)) = entry_tokens (k, v).
Proof. destruct v; reflexivity. Qed.

Lemma other_entry_end k v :
  plain_name k = true → plain_word v = true →
  other (entry_tokens (k, v)) = Ok (Decl k v false, length (entry_tokens (k, v))).
Proof.
  intros Hk Hv. unfold other. rewrite other_scan_end. cbn [andb].
  rewrite drop_end_entry.
  pose proof (λ custom, decl_entry k v custom [] Hk Hv (or_introl eq_refl)) as Hdecl.
  rewrite app_nil_r in Hdecl. destruct (startsWith _ _); by rewrite Hdecl.
Qed.

Lemma other_entry_semicolon k v more :
  plain_name k = true → plain_word v = true →
  other (entry_tokens (k, v) ++ mkToken TSemicolon (js ";") :: more)
  = Ok (Decl k v false, S (length (entry_tokens (k, v)))).
Proof.
  intros Hk Hv. unfold other. rewrite other_scan_semicolon.
  rewrite decl_entry by auto. cbn [rbind]. rewrite length_app. cbn [length].
  by rewrite Nat.add_1_r.
Qed.

Lemma parse_go_skip tokens st more :
  parse_go (length tokens) st (tokens ++ more) = parse_go 0 st more.
Proof. induction tokens as [|t tokens IH]; [by destruct more|]. exact IH. Qed.

Lemma parse_go_style_tokens m st :
  depth st = 0 → plain_styles m = true →
  parse_go 0 st (style_tokens m)
  = Ok (nodes st ++ map (fun '(k, v) => Decl k v false) m).
Proof.
  revert st. induction m as [|[k v] m IH]; intros [d ns] Hd Hm; cbn in Hd; subst d.
  - cbn. by rewrite app_nil_r.
  - cbn [plain_styles forallb] in Hm. apply andb_prop in Hm as [[Hk Hv]%andb_prop Hm].
    destruct m as [|e m].
    + cbn [style_tokens]. pose proof (other_entry_end k v Hk Hv) as Hother.
      unfold entry_tokens in *. cbn [fst snd] in *.
      cbn [parse_go ttype]. rewrite Hother. cbn [rbind length pred].
      pose proof (parse_go_skip (value_tokens v) (init (Decl k v false) (mkState 0 ns)) [])
        as Hskip.
      rewrite app_nil_r in Hskip. rewrite Hskip. reflexivity.
    + change (style_tokens ((k, v) :: e :: m))
        with (entry_tokens (k, v) ++ mkToken TSemicolon (js ";") :: style_tokens (e :: m)).
      specialize (IH (init (Decl k v false) (mkState 0 ns)) eq_refl Hm).
      set (more := style_tokens (e :: m)) in *.
      pose proof (other_entry_semicolon k v more Hk Hv) as Hother.
      unfold entry_tokens in *. cbn [fst snd] in *.
      cbn [app parse_go ttype]. cbn [app] in Hother. rewrite Hother.
      cbn [rbind length pred].
      pose proof (parse_go_skip (value_tokens v ++ [mkToken TSemicolon (js ";")])
                    (init (Decl k v false) (mkState 0 ns)) more) as Hskip.
      rewrite length_app, Nat.add_1_r, <- app_assoc in Hskip. cbn [app] in Hskip.
      rewrite Hskip, IH. cbn [init depth nodes map]. by rewrite <- app_assoc.
Qed.

Lemma parse_serialize m :
  plain_styles m = true →
  parse (serialize m) = Ok (map (fun '(k, v) => Decl k v false) m).
Proof.
  intros Hm. unfold parse, tokenizer. rewrite tokenizer_serialize by done.
  cbn [rbind]. by rewrite parse_go_style_tokens.
Qed.

Lemma declarations_map m :
  declarations (map (fun '(k, v) => Decl k v false) m) = m.
Proof. induction m as [|[k v] m IH]; [done|]. cbn. by f_equal. Qed.

Lemma collect_map m :
  JsMap.wf m → collect (map (fun '(k, v) => Decl k v false) m) [] = m.
Proof.
  intros Hwf. unfold collect. rewrite declarations_map.
  by rewrite JsMapFacts.fold_set_id.
Qed.

Lemma serialize_no_whitespace m :
  plain_styles m = true → forallb (fun c => negb (is_whitespace c)) (serialize m) = true.
Proof.
  induction m as [|[k v] m IH]; [done|]. cbn [plain_styles forallb].
  intros [[Hk Hv]%andb_prop Hm]%andb_prop.
  assert (∀ w, plain_word w = true → forallb (fun c => negb (is_whitespace c)) w = true) as Hw.
  { induction w as [|c w IHw]; [done|]. cbn [plain_word forallb].
    intros [Hc Hw]%andb_prop. apply plain_char_facts in Hc as (-> & _). by apply IHw. }
  assert (plain_word k = true) as Hk'.
  { destruct k; [done|]. cbn in Hk. by apply andb_prop in Hk as [[? _]%andb_prop _]. }
  destruct m as [|e m]; unfold serialize, Declaration_toString; cbn [map join].
  - rewrite !forallb_app, (Hw k Hk'), (Hw v Hv). reflexivity.
  - rewrite !forallb_app, (Hw k Hk'), (Hw v Hv). cbn [andb]. by apply IH.
Qed.

Lemma trim_no_whitespace s :
  forallb (fun c => negb (is_whitespace c)) s = true → trim s = s.
Proof.
  intros Hs.
  assert (∀ t, forallb (fun c => negb (is_whitespace c)) t = true → trimStart t = t) as Hstart.
  { intros [|c t]; [done|]. cbn. intros [Hc _]%andb_prop.
    apply negb_true_iff in Hc. by rewrite Hc. }
  unfold trim, trimEnd. rewrite (Hstart s Hs), Hstart; [apply rev_involutive|].
  apply forallb_forall. intros c Hc%in_rev.
  by eapply forallb_forall in Hs.
Qed.

Lemma styleString_setInlineStyles node m :
  styleString (setInlineStyles node m) = trim (serialize m).
Proof.
  unfold styleString, setInlineStyles. by rewrite getProperty_setProperty_eq.
Qed.

(** The round trip for plain names and values. *)
Lemma round_trip_plain node m :
  JsMap.wf m → plain_styles m = true →
  getInlineStyles parse (setInlineStyles node m) = Ok m.
Proof.
  intros Hwf Hm. rewrite getInlineStyles_eq, styleString_setInlineStyles.
  rewrite trim_no_whitespace by (by apply serialize_no_whitespace).
  destruct (serialize m) as [|c s] eqn:Hs.
  - destruct m as [|[[|c k] v] [|e m]]; try done.
  - rewrite <- Hs, parse_serialize by done. by rewrite collect_map.
Qed.

Lemma plain_styles_set k v m :
  plain_name k = true → plain_word v = true → plain_styles m = true →
  plain_styles (JsMap.set k v m) = true.
Proof.
  intros Hk Hv. induction m as [|[k' v'] m IH]; cbn [JsMap.set plain_styles forallb].
  - intros _. by rewrite Hk, Hv.
  - intros [Hkv Hm]%andb_prop. destruct (str_eqb k' k); cbn [forallb].
    + by rewrite Hk, Hv, Hm.
    + unfold plain_styles in IH. by rewrite Hkv, IH.
Qed.

End RoundTrip.

Lemma wf_delete k m : JsMap.wf m → JsMap.wf (JsMap.delete k m).
Proof.
  unfold JsMap.wf, JsMap.keys. induction m as [|[k' v'] m IH]; [done|].
  cbn [JsMap.delete map fst]. intros [Hk' Hm]%NoDup_cons.
  destruct (str_eqb k' k); [done|]. cbn [map fst]. apply NoDup_cons. split; [|by apply IH].
  intros Hin. apply Hk'. clear -Hin.
  induction m as [|[k0 v0] m IH]; [done|]. cbn [JsMap.delete map fst] in *.
  destruct (str_eqb k0 k).
  - apply elem_of_cons. by right.
  - cbn [map fst] in Hin. apply elem_of_cons in Hin as [->|Hin]; apply elem_of_cons; auto.
Qed.


Lemma wf_getInlineStyles parse node m :
  getInlineStyles parse node = Ok m → JsMap.wf m.
Proof.
  rewrite getInlineStyles_eq. intros [= <-].
  destruct (styleString node); [apply JsMapFacts.wf_nil|].
  destruct (parse _); [apply CollectFacts.wf_collect|apply JsMapFacts.wf_nil].
Qed.

(** C1: [setInlineStyle] with the empty string as value does not remove the
    property.  On a node whose styles are the map [m] of plain names and
    values, the styles read back afterwards are [m] with [cssProperty] set
    to the empty string, so the key is present. *)
Theorem setInlineStyle_empty_string_keeps_key
    (serializeCssStringValue : jsstring → jsstring)
    (node : Element) (cssProperty : jsstring) (m : JsMap.t) :
  getInlineStyles PostCss.parse node = Ok m →
  plain_styles m = true → plain_name cssProperty = true →
  rbind (setInlineStyle PostCss.parse serializeCssStringValue node cssProperty (Some [])
           FormatRaw)
        (getInlineStyles PostCss.parse)
  = Ok (JsMap.set cssProperty [] m)
  ∧ JsMap.has cssProperty (JsMap.set cssProperty [] m) = true.
Proof.
  intros Hget Hm Hp. split.
  - unfold setInlineStyle. rewrite Hget. cbn [rbind].
    apply RoundTrip.round_trip_plain.
    + by eapply JsMapFacts.wf_set, wf_getInlineStyles.
    + by apply RoundTrip.plain_styles_set.
  - unfold JsMap.has. rewrite JsMapFacts.get_set_eq. by apply bool_decide_eq_true_2.
Qed.

Lemma setInlineStyle_empty_string_keeps_key_witness :
  rbind (setInlineStyle PostCss.parse id (mkElement (js "div") None []) (js "color")
           (Some []) FormatRaw)
        (getInlineStyles PostCss.parse)
  = Ok [(js "color", [])].
Proof.
  refine (proj1 (setInlineStyle_empty_string_keeps_key id (mkElement (js "div") None [])
                   (js "color") [] _ _ _)).
  - vm_compute. reflexivity.
  - vm_compute. reflexivity.
  - vm_compute. reflexivity.
Defined.



(** ** The round trip for values of several tokens *)

Module ValueRoundTrip.
Import PostCss.































(** The parser on the tokens of a value *)






























End ValueRoundTrip.

(** The declarations of plain words are among those that are read back. *)
Lemma plain_entry_round_trip k v :
  plain_name k = true → plain_word v = true →
  round_trip_entry (k, v) = true ∧ serves_parens (k, v) = true.
Proof.
  intros Hk Hv. unfold round_trip_entry, serves_parens, tokens_of_value. cbn [fst snd].
  rewrite Hk. destruct v as [|c w].
  { cbn [PostCss.tokenize_go last parens_served].
    change (value_tokens_ok []) with true. change (colons_pass []) with true.
    by rewrite orb_true_r. }
  pose proof (RoundTrip.tokenize_go_word [k] c w [] Hv eq_refl) as Htokens.
  rewrite app_nil_r in Htokens. rewrite Htokens. cbn [PostCss.tokenize_go]. unfold rmap. cbn [rbind].
  pose proof Hv as [Hc _]%andb_prop.
  apply RoundTrip.plain_char_facts in Hc
    as (_ & _ & _ & _ & _ & _ & _ & _ & Hback & _ & _ & Hbang).
  assert (value_tokens_ok [PostCss.mkToken PostCss.TWord (c :: w)] = true) as ->.
  { unfold value_tokens_ok, important_free, no_escape_at, open_escape.
    cbn [forallb last head drop PostCss.ttext]. rewrite Hback, orb_true_r, andb_true_r.
    assert (str_eqb (toLowerCase (c :: w)) (js "!important") = false) as ->; [|done].
    apply str_eqb_neq. by intros [= ? _]. }
  assert (PostCss.colon 0 None [PostCss.mkToken PostCss.TWord (c :: w)] = Ok false)
    as Hcolon by done.
  unfold colons_pass. rewrite Hcolon, orb_true_r.
  split; [|reflexivity].
  destruct (last (c :: w)) as [d|] eqn:Hlast; [|done].
  apply last_Some_elem_of in Hlast.
  unfold plain_word in Hv. rewrite forallb_forall in Hv.
  apply list_elem_of_In, Hv, RoundTrip.plain_char_facts in Hlast as (-> & _). done.
Qed.

Lemma plain_styles_round_trip_styles m :
  plain_styles m = true → round_trip_styles m = true.
Proof.
  intros Hm. unfold round_trip_styles.
  assert (forallb round_trip_entry m = true ∧ forallb serves_parens m = true)
    as [-> ->]; [|by rewrite orb_true_r].
  induction m as [|[k v] m IH]; [done|]. cbn [plain_styles forallb] in *.
  apply andb_prop in Hm as [[Hk Hv]%andb_prop Hm].
  destruct (plain_entry_round_trip k v Hk Hv) as [-> ->]. by apply IH.
Qed.



(** The conditions of [round_trip_styles] cannot be dropped.  Each of these
    maps breaks one of them and is not read back: a value that starts or
    ends with white space, that holds a comment, a semicolon or a curly
    bracket, whose string or bracket is not closed, that ends in an
    [!important] annotation or in a backslash, or that holds a colon; a
    name that starts with an underscore, that holds white space, or that is
    empty; and a parenthesis that finds the word [url] of another
    declaration. *)
Lemma round_trip_limits :
  let z := (js "z", js "0") in
  forallb (fun m => negb (round_trip_styles m) && negb (reads_back m))
    [ [(js "a", js " 1"); z];
      [(js "a", js "1 "); z];
      [(js "a", js "1 /*c*/ 2"); z];
      [(js "a", js "a;b"); z];
      [(js "a", js "{"); z];
      [(js "a", js "'a"); z];
      [(js "a", js "(a"); z];
      [(js "a", js "red !important"); z];
      [(js "a", js "x" ++ [PostCss.BACKSLASH]); z];
      [(js "a", js "b:c"); z];
      [(js "_a", js "1"); z];
      [(js "a b", js "1"); z];
      [([], js "1"); z];
      [(js "a", js "url"); (js "b", js "((a')'))")] ]
  = true.
Proof. vm_compute. reflexivity. Qed.

(** ** Line breaks and paragraphs *)




Lemma re_blank_lines_cons c s :
  re_blank_lines (c :: s)
  = if is_newline c && starts_with_newline s
    then Some (S (run_length is_newline s)) else None.
Proof.
  unfold re_blank_lines. cbn [run_length].
  destruct (is_newline c); [|done]. destruct s as [|d s]; [done|].
  cbn [run_length starts_with_newline]. by destruct (is_newline d).
Qed.

Lemma split_go_cons m c s cur :
  split_go m 0 cur (c :: s)
  = match m (c :: s) with
    | Some (S len) => rev cur :: split_go m len [] s
    | _ => split_go m 0 (c :: cur) s
    end.
Proof. reflexivity. Qed.



Lemma fold_addChild_nodes {A} (f : A → Node) (l : list A) (acc : list Node) :
  fold_left Hastscript.addChild (map (fun x => Hastscript.ChildNode (f x)) l) acc
  = acc ++ map f l.
Proof.
  revert acc. induction l as [|x l IH]; intros acc; cbn.
  - by rewrite app_nil_r.
  - rewrite IH. by rewrite <- app_assoc.
Qed.

Lemma split_go_nonempty m skip cur s : ∃ p ps, split_go m skip cur s = p :: ps.
Proof.
  revert skip cur. induction s as [|c s IH]; intros skip cur; [by eexists _, _|].
  cbn [split_go]. destruct skip as [|k]; [|apply IH].
  destruct (m (c :: s)) as [[|len]|]; [apply IH|by eexists _, _|apply IH].
Qed.

(** ** The Markdown parser *)

Module MdFacts.
Import Md.












(** No node made by the parser is a paragraph. *)

















End MdFacts.





(** * Further properties of the module *)

(** ** [setProperty] *)

Lemma same_element_eq a b : a = b → same_element a b.
Proof. by intros ->. Qed.



(** Calls of [setProperty] for different properties can be swapped: every
    property reads the same in both orders. *)
Theorem setProperty_commutes (node : Element) (name1 name2 : jsstring)
    (value1 value2 : option PropertyValue) :
  str_eqb name1 name2 = false →
  same_element (setProperty (setProperty node name1 value1) name2 value2)
    (setProperty (setProperty node name2 value2) name1 value1).
Proof.
  intros Hne%str_eqb_neq. apply same_element_eq.
  unfold setProperty. cbn [tagName properties children default].
  do 2 f_equal. destruct value1 as [v1|], value2 as [v2|].
  - by apply insert_insert_ne.
  - by apply delete_insert_ne.
  - by apply insert_delete_ne.
  - apply delete_delete.
Qed.

Lemma setProperty_commutes_witness :
  same_element
    (setProperty (setProperty (styled (js "a:1")) (js "id") (Some (PVString (js "x"))))
       (js "style") None)
    (setProperty (setProperty (styled (js "a:1")) (js "style") None)
       (js "id") (Some (PVString (js "x")))).
Proof. apply setProperty_commutes. vm_compute. reflexivity. Defined.

(** ** Class names *)

Lemma Array_indexOf_None array x : Array_indexOf array x = None ↔ x ∉ array.
Proof.
  induction array as [|y array IH]; cbn [Array_indexOf].
  - split; [intros _; apply not_elem_of_nil|done].
  - destruct (str_eqb y x) eqn:E.
    + apply str_eqb_eq in E as ->. split; [done|]. intros []. apply elem_of_cons. by left.
    + apply str_eqb_neq in E. rewrite not_elem_of_cons, <- IH.
      destruct (Array_indexOf array x); cbn; split; try done.
      by intros [_ ?].
Qed.

Lemma Array_indexOf_Some array x i :
  Array_indexOf array x = Some i →
  ∃ before after,
    array = before ++ (x :: after) ∧ (x ∉ before) ∧ length before = i
    ∧ base.delete i array = before ++ after.
Proof.
  revert i. induction array as [|y array IH]; intros i; cbn [Array_indexOf]; [done|].
  destruct (str_eqb y x) eqn:E.
  - apply str_eqb_eq in E as ->. intros [= <-]. exists [], array.
    split_and!; try done. apply not_elem_of_nil.
  - apply str_eqb_neq in E. destruct (Array_indexOf array x) as [j|]; [|done].
    cbn. intros [= <-]. destruct (IH j eq_refl) as (before & after & -> & Hnot & <- & Hdel).
    exists (y :: before), after. split_and!; try done.
    + apply not_elem_of_cons. split; [congruence|done].
    + change (y :: base.delete (length before) (before ++ x :: after) = y :: before ++ after).
      by rewrite Hdel.
Qed.

Lemma getClassNames_setProperty node classes :
  getClassNames (OfNode (setProperty node (js "className") (Some (PVArray classes))))
  = classes.
Proof. unfold getClassNames. by rewrite getProperty_setProperty_eq. Qed.

Lemma push_new_elem combined c : c ∈ combined → push_new combined c = combined.
Proof.
  intros Hin. unfold push_new. destruct (Array_indexOf combined c) eqn:E; [done|].
  by apply Array_indexOf_None in E.
Qed.

Lemma push_new_not_elem combined c : c ∉ combined → push_new combined c = combined ++ [c].
Proof.
  intros Hin%Array_indexOf_None. unfold push_new. by rewrite Hin.
Qed.

Lemma fold_push_new_spec requested combined :
  ∃ added,
    fold_left push_new requested combined = combined ++ added
    ∧ (∀ c, c ∈ requested → c ∈ combined ++ added)
    ∧ (∀ c, c ∈ added → c ∈ requested ∧ c ∉ combined)
    ∧ NoDup added.
Proof.
  revert combined. induction requested as [|r requested IH]; intros combined.
  - exists []. rewrite app_nil_r. split_and!; [done| | |constructor].
    + by intros c Hc%elem_of_nil.
    + by intros c Hc%elem_of_nil.
  - cbn [fold_left]. destruct (decide (r ∈ combined)) as [Hin|Hin].
    + rewrite push_new_elem by done.
      destruct (IH combined) as (added & Heq & Hreq & Hadded & Hnd).
      exists added. split_and!; [done| |  |done].
      * intros c [->|Hc]%elem_of_cons; [apply elem_of_app; by left|by apply Hreq].
      * intros c Hc. destruct (Hadded c Hc). split; [apply elem_of_cons; by right|done].
    + rewrite push_new_not_elem by done.
      destruct (IH (combined ++ [r])) as (added & Heq & Hreq & Hadded & Hnd).
      exists (r :: added). rewrite Heq, <- app_assoc. split_and!; [done| | |].
      * intros c [->|Hc]%elem_of_cons.
        -- apply elem_of_app. right. apply elem_of_cons. by left.
        -- specialize (Hreq c Hc). by rewrite <- app_assoc in Hreq.
      * intros c [->|Hc]%elem_of_cons.
        -- split; [apply elem_of_cons; by left|done].
        -- destruct (Hadded c Hc) as [H1 H2]. split; [apply elem_of_cons; by right|].
           intros Hc'. apply H2. apply elem_of_app. by left.
      * apply NoDup_cons. split; [|done]. intros Hr. destruct (Hadded r Hr) as [_ H2].
        apply H2. apply elem_of_app. right. by apply list_elem_of_singleton.
Qed.

Lemma fold_push_new_id requested combined :
  (∀ c, c ∈ requested → c ∈ combined) → fold_left push_new requested combined = combined.
Proof.
  induction requested as [|r requested IH]; intros Hall; [done|].
  cbn [fold_left]. rewrite push_new_elem by (apply Hall, elem_of_cons; by left).
  apply IH. intros c Hc. apply Hall, elem_of_cons. by right.
Qed.

Lemma elem_of_rev {A} (x : A) (l : list A) : x ∈ rev l ↔ x ∈ l.
Proof. rewrite !list_elem_of_In. symmetry. apply in_rev. Qed.

Lemma split_go_space_join s cur :
  join [SPACE] (split_go sep_space 0 cur s) = rev cur ++ s
  ∧ split_go sep_space 0 cur s ≠ [].
Proof.
  revert cur. induction s as [|c s IH]; intros cur.
  - cbn. by rewrite app_nil_r.
  - rewrite split_go_cons. cbn [sep_space]. destruct (ch_eqb c SPACE) eqn:Hc.
    + apply ch_eqb_eq in Hc as ->. destruct (IH []) as [Hjoin Hne]. split; [|done].
      destruct (split_go sep_space 0 [] s) as [|p ps]; [done|].
      change (join [SPACE] (rev cur :: p :: ps))
        with (rev cur ++ [SPACE] ++ join [SPACE] (p :: ps)).
      by rewrite Hjoin.
    + destruct (IH (c :: cur)) as [Hjoin Hne]. split; [|done].
      rewrite Hjoin. cbn [rev]. by rewrite <- app_assoc.
Qed.

Lemma split_go_space_free s cur :
  SPACE ∉ cur → Forall (fun name => SPACE ∉ name) (split_go sep_space 0 cur s).
Proof.
  revert cur. induction s as [|c s IH]; intros cur Hcur.
  - cbn. repeat constructor. by rewrite elem_of_rev.
  - rewrite split_go_cons. cbn [sep_space]. destruct (ch_eqb c SPACE) eqn:Hc.
    + constructor; [by rewrite elem_of_rev|]. apply IH, not_elem_of_nil.
    + apply IH. apply ch_eqb_neq in Hc. apply not_elem_of_cons. split; [congruence|done].
Qed.

(** [getClassNames] on a non-empty string returns at least one name, no
    name has a space in it, and the names joined by single spaces give the
    string back; on the empty string it returns no name. *)
Theorem getClassNames_string (classes : jsstring) :
  (classes ≠ [] →
     getClassNames (OfString classes) ≠ []
     ∧ join [SPACE] (getClassNames (OfString classes)) = classes
     ∧ Forall (fun name => SPACE ∉ name) (getClassNames (OfString classes)))
  ∧ getClassNames (OfString []) = [].
Proof.
  split; [|done]. intros Hne. destruct classes as [|c classes]; [done|].
  cbn [getClassNames]. unfold split.
  destruct (split_go_space_join (c :: classes) []) as [Hjoin Hnil].
  split_and!; [done|done|]. apply split_go_space_free, not_elem_of_nil.
Qed.

Lemma getClassNames_string_witness :
  join [SPACE] (getClassNames (OfString (js "a  b"))) = js "a  b"
  ∧ getClassNames (OfString (js "a  b")) = [js "a"; []; js "b"].
Proof.
  split; [|vm_compute; reflexivity].
  refine (proj1 (proj2 (proj1 (getClassNames_string (js "a  b")) _))).
  vm_compute. discriminate.
Defined.

(** [getClassNames] on a node reads back the array of names written by
    [setProperty]; a [className] that is a string is taken apart like the
    string itself; after the property has been removed, and on a node
    without [properties], there is no name. *)
Theorem getClassNames_node (node : Element) (classes : list jsstring) (s : jsstring) :
  getClassNames (OfNode (setProperty node (js "className") (Some (PVArray classes))))
  = classes
  ∧ getClassNames (OfNode (setProperty node (js "className") (Some (PVString s))))
    = getClassNames (OfString s)
  ∧ getClassNames (OfNode (setProperty node (js "className") None)) = []
  ∧ getClassNames (OfNode (mkElement (tagName node) None (children node))) = [].
Proof.
  unfold getClassNames. rewrite !getProperty_setProperty_eq. done.
Qed.

Lemma addClassNames_classes node classNames :
  getClassNames (OfNode (addClassNames node classNames))
  = fold_left push_new (getClassNames (of_class_names classNames))
      (getClassNames (OfNode node)).
Proof. unfold addClassNames. by rewrite getClassNames_setProperty. Qed.

(** [addClassNames]: the names the node had come first, in their order; the
    names added follow, each once; every name asked for is on the node
    afterwards, and a name is added only if it was asked for and was not
    there. *)
Theorem addClassNames_spec (node : Element) (classNames : ClassNames) :
  let old := getClassNames (OfNode node) in
  let requested := getClassNames (of_class_names classNames) in
  ∃ added,
    getClassNames (OfNode (addClassNames node classNames)) = old ++ added
    ∧ (∀ c, c ∈ requested → c ∈ old ++ added)
    ∧ (∀ c, c ∈ added → c ∈ requested ∧ c ∉ old)
    ∧ NoDup added.
Proof.
  intros old requested. rewrite addClassNames_classes. apply fold_push_new_spec.
Qed.

(** [addClassNames] keeps a list of names without repetition free of
    repetitions. *)
Theorem addClassNames_NoDup (node : Element) (classNames : ClassNames) :
  NoDup (getClassNames (OfNode node)) →
  NoDup (getClassNames (OfNode (addClassNames node classNames))).
Proof.
  intros Hold. rewrite addClassNames_classes.
  destruct (fold_push_new_spec (getClassNames (of_class_names classNames))
              (getClassNames (OfNode node))) as (added & -> & _ & Hadded & Hnd).
  apply NoDup_app. split_and!; [done| |done].
  intros c Hc Hc'. by destruct (Hadded c Hc').
Qed.

Lemma addClassNames_NoDup_witness :
  NoDup (getClassNames
           (OfNode (addClassNames (classed [js "a"]) (ClassArray [js "b"; js "a"; js "b"])))).
Proof.
  apply addClassNames_NoDup. vm_compute. apply NoDup_singleton.
Defined.

(** Calling [addClassNames] a second time with the same names changes
    nothing. *)
Theorem addClassNames_idempotent (node : Element) (classNames : ClassNames) :
  same_element (addClassNames (addClassNames node classNames) classNames)
    (addClassNames node classNames).
Proof.
  apply same_element_eq. unfold addClassNames at 1.
  rewrite addClassNames_classes.
  destruct (fold_push_new_spec (getClassNames (of_class_names classNames))
              (getClassNames (OfNode node))) as (added & Heq & Hreq & _).
  rewrite fold_push_new_id by (rewrite Heq; exact Hreq).
  unfold addClassNames.
  set (new := fold_left push_new _ _).
  unfold setProperty. cbn [tagName properties children default]. do 2 f_equal.
  apply insert_insert_eq.
Qed.

Lemma split_go_no_space s cur :
  SPACE ∉ s → split_go sep_space 0 cur s = [rev cur ++ s].
Proof.
  revert cur. induction s as [|c s IH]; intros cur Hs.
  - cbn. by rewrite app_nil_r.
  - apply not_elem_of_cons in Hs as [Hc Hs]. rewrite split_go_cons. cbn [sep_space].
    assert (ch_eqb c SPACE = false) as -> by (apply ch_eqb_neq; congruence).
    rewrite IH by done. cbn [rev]. by rewrite <- app_assoc.
Qed.

Lemma getClassNames_single className :
  className ≠ [] → SPACE ∉ className → getClassNames (OfString className) = [className].
Proof.
  intros Hne Hsp. destruct className as [|c className]; [done|].
  cbn [getClassNames]. unfold split. by rewrite split_go_no_space.
Qed.

(** [addClassName] with a name that is not empty and has no space appends
    the name when the node does not have it, and leaves the names as they
    are when it does; with the empty string it leaves them as they are. *)
Theorem addClassName_spec (node : Element) (className : jsstring) :
  let old := getClassNames (OfNode node) in
  (className ≠ [] → SPACE ∉ className →
     getClassNames (OfNode (addClassName node className))
     = if bool_decide (className ∈ old) then old else old ++ [className])
  ∧ getClassNames (OfNode (addClassName node [])) = old.
Proof.
  intros old. unfold addClassName. rewrite !addClassNames_classes. split; [|done].
  intros Hne Hsp. cbn [of_class_names]. rewrite getClassNames_single by done.
  cbn [fold_left]. case_bool_decide as Hin.
  - by apply push_new_elem.
  - by apply push_new_not_elem.
Qed.

Lemma addClassName_spec_witness :
  getClassNames (OfNode (addClassName (classed [js "a"; js "b"]) (js "c")))
  = [js "a"; js "b"; js "c"].
Proof.
  refine (proj1 (addClassName_spec (classed [js "a"; js "b"]) (js "c")) _ _).
  - vm_compute. discriminate.
  - vm_compute. intros Hin. apply elem_of_cons in Hin as [Hin|Hin]; [discriminate Hin|].
    by apply elem_of_nil in Hin.
Defined.

(** A string of several names separated by spaces is taken apart by
    [addClassName]: every name in it that the node lacks is added on its
    own. *)
Theorem addClassName_splits (node : Element) (first second : jsstring) :
  first ≠ [] → SPACE ∉ first → SPACE ∉ second →
  getClassNames (OfNode (addClassName node (first ++ SPACE :: second)))
  = push_new (push_new (getClassNames (OfNode node)) first) second.
Proof.
  intros Hne Hfirst Hsecond. unfold addClassName. rewrite addClassNames_classes.
  cbn [of_class_names].
  assert (getClassNames (OfString (first ++ SPACE :: second)) = [first; second]) as ->;
    [|done].
  destruct first as [|c first]; [done|]. cbn [getClassNames app]. unfold split.
  assert (∀ cur, SPACE ∉ first →
            split_go sep_space 0 cur (first ++ SPACE :: second)
            = [rev cur ++ first; second]) as Hsplit.
  { clear -Hsecond. induction first as [|d first IH]; intros cur Hf.
    - cbn [app]. rewrite split_go_cons. cbn [sep_space]. rewrite ch_eqb_refl.
      rewrite split_go_no_space by done. by rewrite app_nil_r.
    - apply not_elem_of_cons in Hf as [Hd Hf]. cbn [app]. rewrite split_go_cons.
      cbn [sep_space].
      assert (ch_eqb d SPACE = false) as -> by (apply ch_eqb_neq; congruence).
      rewrite IH by done. cbn [rev]. by rewrite <- app_assoc. }
  apply not_elem_of_cons in Hfirst as [Hc Hfirst].
  rewrite split_go_cons. cbn [sep_space].
  assert (ch_eqb c SPACE = false) as -> by (apply ch_eqb_neq; congruence).
  by rewrite Hsplit.
Qed.

Lemma addClassName_splits_witness :
  getClassNames (OfNode (addClassName (classed [js "b"]) (js "a b")))
  = [js "b"; js "a"].
Proof.
  refine (addClassName_splits (classed [js "b"]) (js "a") (js "b") _ _ _).
  - vm_compute. discriminate.
  - vm_compute. intros Hin. apply elem_of_cons in Hin as [Hin|Hin]; [discriminate Hin|].
    by apply elem_of_nil in Hin.
  - vm_compute. intros Hin. apply elem_of_cons in Hin as [Hin|Hin]; [discriminate Hin|].
    by apply elem_of_nil in Hin.
Defined.

(** [removeClassName] returns the node untouched when it does not have the
    name: no [properties] object is made and [className] is not rewritten. *)
Theorem removeClassName_absent (node : Element) (className : jsstring) :
  className ∉ getClassNames (OfNode node) → removeClassName node className = node.
Proof.
  intros Habsent%Array_indexOf_None. unfold removeClassName. by rewrite Habsent.
Qed.

Lemma removeClassName_absent_witness :
  removeClassName (mkElement (js "div") None []) (js "a") = mkElement (js "div") None [].
Proof.
  apply removeClassName_absent. vm_compute. apply not_elem_of_nil.
Defined.

(** [removeClassName] takes out the first occurrence of the name and keeps
    the other names in their order. *)
Theorem removeClassName_present (node : Element) (className : jsstring) :
  className ∈ getClassNames (OfNode node) →
  ∃ before after,
    getClassNames (OfNode node) = before ++ className :: after
    ∧ (className ∉ before)
    ∧ getClassNames (OfNode (removeClassName node className)) = before ++ after.
Proof.
  intros Hin. unfold removeClassName.
  destruct (Array_indexOf (getClassNames (OfNode node)) className) as [i|] eqn:Hi.
  - apply Array_indexOf_Some in Hi as (before & after & Heq & Hnot & _ & Hdel).
    exists before, after. by rewrite getClassNames_setProperty.
  - by apply Array_indexOf_None in Hi.
Qed.

Lemma removeClassName_present_witness :
  ∃ before after,
    [js "a"; js "b"; js "a"] = before ++ js "b" :: after
    ∧ getClassNames (OfNode (removeClassName (classed [js "a"; js "b"; js "a"]) (js "b")))
      = before ++ after.
Proof.
  destruct (removeClassName_present (classed [js "a"; js "b"; js "a"]) (js "b"))
    as (before & after & Heq & _ & Hrem).
  - vm_compute. apply elem_of_cons. right. apply elem_of_cons. by left.
  - exists before, after. split; [exact Heq|exact Hrem].
Defined.

(** On a node whose names are free of repetitions the name is gone after
    [removeClassName]. *)
Theorem removeClassName_removes (node : Element) (className : jsstring) :
  NoDup (getClassNames (OfNode node)) →
  className ∉ getClassNames (OfNode (removeClassName node className)).
Proof.
  intros Hnd. unfold removeClassName.
  destruct (Array_indexOf (getClassNames (OfNode node)) className) as [i|] eqn:Hi.
  - apply Array_indexOf_Some in Hi as (before & after & Heq & Hnot & _ & Hdel).
    rewrite getClassNames_setProperty, Hdel. rewrite Heq in Hnd.
    apply NoDup_app in Hnd as (_ & Hdis & [Hafter _]%NoDup_cons).
    intros [Hb|Ha]%elem_of_app; done.
  - by apply Array_indexOf_None in Hi.
Qed.

Lemma removeClassName_removes_witness :
  js "b" ∉ getClassNames (OfNode (removeClassName (classed [js "a"; js "b"]) (js "b"))).
Proof.
  apply removeClassName_removes. vm_compute. apply NoDup_cons. split.
  - intros Hin. apply elem_of_cons in Hin as [Hin|Hin]; [discriminate Hin|].
    by apply elem_of_nil in Hin.
  - apply NoDup_singleton.
Defined.

(** Adding a name the node does not have and removing it again gives the
    names the node had. *)
Theorem removeClassName_addClassName (node : Element) (className : jsstring) :
  className ≠ [] → SPACE ∉ className → className ∉ getClassNames (OfNode node) →
  getClassNames (OfNode (removeClassName (addClassName node className) className))
  = getClassNames (OfNode node).
Proof.
  intros Hne Hsp Habsent.
  assert (getClassNames (OfNode (addClassName node className))
          = getClassNames (OfNode node) ++ [className]) as Hadd.
  { unfold addClassName. rewrite addClassNames_classes. cbn [of_class_names].
    rewrite getClassNames_single by done. by apply push_new_not_elem. }
  unfold removeClassName. rewrite Hadd.
  destruct (Array_indexOf _ className) as [i|] eqn:Hi.
  - apply Array_indexOf_Some in Hi as (before & after & Heq & Hnot & _ & Hdel).
    rewrite getClassNames_setProperty, Hdel.
    destruct after as [|a after _] using rev_ind.
    + apply app_inj_tail in Heq as [-> _]. by rewrite app_nil_r.
    + rewrite app_comm_cons, app_assoc in Heq. apply app_inj_tail in Heq as [Heq <-].
      exfalso. apply Habsent. rewrite Heq. apply elem_of_app. right.
      apply elem_of_cons. by left.
  - apply Array_indexOf_None in Hi. exfalso. apply Hi, elem_of_app. right.
    by apply list_elem_of_singleton.
Qed.

Lemma removeClassName_addClassName_witness :
  getClassNames (OfNode (removeClassName (addClassName (classed [js "a"]) (js "b")) (js "b")))
  = [js "a"].
Proof.
  refine (removeClassName_addClassName (classed [js "a"]) (js "b") _ _ _).
  - vm_compute. discriminate.
  - vm_compute. intros Hin. apply elem_of_cons in Hin as [Hin|Hin]; [discriminate Hin|].
    by apply elem_of_nil in Hin.
  - vm_compute. intros Hin. apply elem_of_cons in Hin as [Hin|Hin]; [discriminate Hin|].
    by apply elem_of_nil in Hin.
Defined.

(** [addClassNames] and [removeClassName] leave the tag name, the children
    and every property other than [className] as they are. *)
Theorem class_names_frame (node : Element) (classNames : ClassNames)
    (className name : jsstring) :
  str_eqb name (js "className") = false →
  (tagName (addClassNames node classNames) = tagName node
   ∧ children (addClassNames node classNames) = children node
   ∧ getProperty (addClassNames node classNames) name = getProperty node name)
  ∧ (tagName (removeClassName node className) = tagName node
     ∧ children (removeClassName node className) = children node
     ∧ getProperty (removeClassName node className) name = getProperty node name).
Proof.
  intros Hne%str_eqb_neq. split.
  - unfold addClassNames. split_and!; [done..|]. by apply getProperty_setProperty_ne.
  - unfold removeClassName. destruct (Array_indexOf _ _); [|done].
    split_and!; [done..|]. by apply getProperty_setProperty_ne.
Qed.

Lemma class_names_frame_witness :
  getProperty (addClassNames (styled (js "a:1")) (ClassString (js "x"))) (js "style")
  = Some (PVString (js "a:1")).
Proof.
  refine (proj2 (proj2 (proj1 (class_names_frame (styled (js "a:1")) (ClassString (js "x"))
                                 (js "y") (js "style") _)))).
  vm_compute. reflexivity.
Defined.

(** ** Inline styles *)

Lemma plain_styles_delete k m :
  plain_styles m = true → plain_styles (JsMap.delete k m) = true.
Proof.
  induction m as [|[k' v'] m IH]; [done|]. cbn [JsMap.delete plain_styles forallb].
  intros [Hkv Hm]%andb_prop. destruct (str_eqb k' k); [done|].
  cbn [forallb]. unfold plain_styles in IH. by rewrite Hkv, IH.
Qed.

(** [setInlineStyles] with the empty map writes the empty string, it does
    not remove the attribute; [getInlineStyles] then returns the empty map
    without a call of [postcss.parse]. *)
Theorem setInlineStyles_empty
    (parse : jsstring → result (list PostCss.ChildNode)) (node : Element) :
  getProperty (setInlineStyles node []) (js "style") = Some (PVString [])
  ∧ getInlineStyles_run parse (setInlineStyles node []) = (Ok [], mkHeap [] []).
Proof.
  assert (getProperty (setInlineStyles node []) (js "style") = Some (PVString [])) as Hstyle.
  { unfold setInlineStyles. by rewrite getProperty_setProperty_eq. }
  split; [done|]. rewrite getInlineStyles_run_eq. unfold styleString. by rewrite Hstyle.
Qed.

(** [setInlineStyle] with [null] removes the property: on a node whose
    styles are a map [m] of plain names and values, the styles read back
    are [m] without the key, the other entries in their order. *)
Theorem setInlineStyle_null_removes
    (serializeCssStringValue : jsstring → jsstring) (node : Element)
    (cssProperty : jsstring) (valueFormat : ValueFormat) (m : JsMap.t) :
  getInlineStyles PostCss.parse node = Ok m → plain_styles m = true →
  rbind (setInlineStyle PostCss.parse serializeCssStringValue node cssProperty None
           valueFormat)
        (getInlineStyles PostCss.parse)
  = Ok (JsMap.delete cssProperty m)
  ∧ JsMap.has cssProperty (JsMap.delete cssProperty m) = false.
Proof.
  intros Hget Hm. pose proof (wf_getInlineStyles _ _ _ Hget) as Hwf. split.
  - unfold setInlineStyle. rewrite Hget. cbn [rbind].
    apply RoundTrip.round_trip_plain; [by apply wf_delete|by apply plain_styles_delete].
  - unfold JsMap.has. apply bool_decide_eq_false_2. intros [v Hv].
    pose proof (JsMapFacts.keys_delete cssProperty m Hwf) as Hkeys.
    apply JsMapFacts.get_None in Hkeys. congruence.
Qed.

Lemma setInlineStyle_null_removes_witness :
  rbind (setInlineStyle PostCss.parse id (styled (js "a:1;b:2;c:3")) (js "b") None FormatRaw)
        (getInlineStyles PostCss.parse)
  = Ok [(js "a", js "1"); (js "c", js "3")].
Proof.
  refine (proj1 (setInlineStyle_null_removes id (styled (js "a:1;b:2;c:3")) (js "b") FormatRaw
                   [(js "a", js "1"); (js "b", js "2"); (js "c", js "3")] _ _)).
  - vm_compute. reflexivity.
  - vm_compute. reflexivity.
Defined.

(** [setInlineStyle] with a value: on a node whose styles are a map [m] of
    plain names and values, when the name is plain and the value written
    (the value itself, or its serialisation in the [string] format) is a
    plain word, the styles read back are [m] with the name set to this
    value; the name keeps its place if it was there and comes last if not,
    and the other entries are as before. *)
Theorem setInlineStyle_sets_value
    (serializeCssStringValue : jsstring → jsstring) (node : Element)
    (cssProperty value : jsstring) (valueFormat : ValueFormat) (m : JsMap.t) :
  let written :=
    match valueFormat with
    | FormatString => serializeCssStringValue value
    | FormatRaw => value
    end in
  getInlineStyles PostCss.parse node = Ok m → plain_styles m = true →
  plain_name cssProperty = true → plain_word written = true →
  rbind (setInlineStyle PostCss.parse serializeCssStringValue node cssProperty (Some value)
           valueFormat)
        (getInlineStyles PostCss.parse)
  = Ok (JsMap.set cssProperty written m)
  ∧ JsMap.get cssProperty (JsMap.set cssProperty written m) = Some written
  ∧ JsMap.keys (JsMap.set cssProperty written m)
    = (if decide (cssProperty ∈ JsMap.keys m) then JsMap.keys m
       else JsMap.keys m ++ [cssProperty])
  ∧ ∀ other, other ≠ cssProperty →
      JsMap.get other (JsMap.set cssProperty written m) = JsMap.get other m.
Proof.
  intros written Hget Hm Hp Hv. split_and!.
  - unfold setInlineStyle. rewrite Hget. cbn [rbind].
    apply RoundTrip.round_trip_plain.
    + by eapply JsMapFacts.wf_set, wf_getInlineStyles.
    + by apply RoundTrip.plain_styles_set.
  - apply JsMapFacts.get_set_eq.
  - apply JsMapFacts.keys_set.
  - intros other Hne. by apply JsMapFacts.get_set_ne.
Qed.

Lemma setInlineStyle_sets_value_witness :
  rbind (setInlineStyle PostCss.parse id (styled (js "a:1;b:2")) (js "a") (Some (js "3"))
           FormatRaw)
        (getInlineStyles PostCss.parse)
  = Ok [(js "a", js "3"); (js "b", js "2")].
Proof.
  refine (proj1 (setInlineStyle_sets_value id (styled (js "a:1;b:2")) (js "a") (js "3")
                   FormatRaw [(js "a", js "1"); (js "b", js "2")] _ _ _ _)).
  - vm_compute. reflexivity.
  - vm_compute. reflexivity.
  - vm_compute. reflexivity.
  - vm_compute. reflexivity.
Defined.

(** ** [fromInlineMarkdown] on one line *)

Lemma run_length_drop_elem p s d rest :
  drop (run_length p s) s = d :: rest → d ∈ s ∧ ∀ e, e ∈ rest → e ∈ s.
Proof.
  induction s as [|c s IH]; [done|]. cbn [run_length].
  destruct (p c).
  - cbn [drop]. intros [Hd Hrest]%IH. split.
    + apply elem_of_cons. by right.
    + intros e He. apply elem_of_cons. right. by apply Hrest.
  - cbn [drop]. intros [= -> ->]. split.
    + apply elem_of_cons. by left.
    + intros e He. apply elem_of_cons. by right.
Qed.

Lemma re_line_break_no_newline s : NEWLINE ∉ s → re_line_break s = None.
Proof.
  intros Hs. unfold re_line_break.
  destruct (drop (run_length is_hspace s) s) as [|d rest] eqn:Hdrop; [done|].
  apply run_length_drop_elem in Hdrop as [Hd Hrest].
  assert (ch_eqb d NEWLINE = false) as ->.
  { apply ch_eqb_neq. intros ->. done. }
  destruct (ch_eqb d CR); [|done]. destruct rest as [|e rest]; [done|].
  assert (ch_eqb e NEWLINE = false) as ->; [|done].
  apply ch_eqb_neq. intros ->. apply Hs, Hrest. apply elem_of_cons. by left.
Qed.

Lemma replaceAll_go_no_match (m : matcher) rep s :
  (∀ t, NEWLINE ∉ t → m t = None) → NEWLINE ∉ s → replaceAll_go m rep 0 s = s.
Proof.
  intros Hm. induction s as [|c s IH]; intros Hs; [done|].
  cbn [replaceAll_go]. rewrite Hm by done.
  apply not_elem_of_cons in Hs as [_ Hs]. by rewrite IH.
Qed.

Lemma re_newlines_no_newline s : NEWLINE ∉ s → re_newlines s = None.
Proof.
  intros Hs. unfold re_newlines. destruct s as [|c s]; [done|].
  apply not_elem_of_cons in Hs as [Hc _]. cbn [run_length]. unfold is_newline.
  by assert (ch_eqb c NEWLINE = false) as -> by (apply ch_eqb_neq; congruence).
Qed.

Lemma split_go_no_newline s cur :
  NEWLINE ∉ s → split_go re_blank_lines 0 cur s = [rev cur ++ s].
Proof.
  revert cur. induction s as [|c s IH]; intros cur Hs.
  - cbn. by rewrite app_nil_r.
  - rewrite split_go_cons, re_blank_lines_cons.
    apply not_elem_of_cons in Hs as [Hc Hs]. unfold is_newline at 1.
    assert (ch_eqb c NEWLINE = false) as -> by (apply ch_eqb_neq; congruence).
    cbn [andb]. rewrite IH by done. cbn [rev]. by rewrite <- app_assoc.
Qed.

(** On a text without a newline, [fromInlineMarkdown] hands the text as it
    is to the tokenizer and the parser, once: without [paragraphs] the
    children of the root are the nodes parsed, with [paragraphs] they are
    one paragraph of these nodes.  This holds for every tokenizer and
    parser, and for the empty text. *)
Theorem fromInlineMarkdown_single_line {Token : Type}
    (tokenize : jsstring → list Token) (toHast : list Token → bool → Root)
    (markdown : jsstring) (options : FromMarkdownOptions) :
  NEWLINE ∉ markdown →
  let root := toHast (tokenize markdown) (default true (autolink options)) in
  root_children (fromInlineMarkdown tokenize toHast markdown options)
  = if default false (paragraphs options) then [paragraph root] else root_children root.
Proof.
  intros Hmd root. unfold fromInlineMarkdown, replaceAll.
  rewrite (replaceAll_go_no_match re_line_break) by (done || apply re_line_break_no_newline).
  destruct (default false (paragraphs options)).
  - unfold split. rewrite split_go_no_newline by done. cbn [rev app map].
    rewrite (replaceAll_go_no_match re_newlines) by (done || apply re_newlines_no_newline).
    reflexivity.
  - cbn [map]. rewrite (replaceAll_go_no_match re_newlines)
      by (done || apply re_newlines_no_newline).
    reflexivity.
Qed.

Lemma fromInlineMarkdown_single_line_witness :
  root_children (fromInlineMarkdown_md [] (mkOptions None (Some true)))
  = [ElementNode (js "p") (Some ∅) []].
Proof.
  refine (fromInlineMarkdown_single_line Md.tokenizeInlineMarkdown
            Md.inlineMarkdownTokensToHast [] (mkOptions None (Some true)) _).
  apply not_elem_of_nil.
Defined.

(** With [paragraphs], every child of the root is a [p] element and there
    is at least one, whatever the tokenizer and the parser return. *)
Theorem fromInlineMarkdown_paragraphs_only {Token : Type}
    (tokenize : jsstring → list Token) (toHast : list Token → bool → Root)
    (markdown : jsstring) (auto : option bool) :
  let children :=
    root_children (fromInlineMarkdown tokenize toHast markdown (mkOptions auto (Some true))) in
  children ≠ [] ∧ Forall (fun n => is_paragraph n = true) children.
Proof.
  intros kids. subst kids. unfold fromInlineMarkdown, Hastscript.h_root.
  cbn [paragraphs autolink default root_children].
  rewrite (fold_addChild_nodes
             (fun chunk =>
                paragraph (toHast (tokenize (replaceAll re_newlines (js " ") chunk))
                             (default true auto)))).
  cbn [app]. split.
  - unfold split.
    destruct (split_go_nonempty re_blank_lines 0 []
                (replaceAll re_line_break [NEWLINE] markdown)) as (p & ps & ->).
    done.
  - apply Forall_map. apply Forall_true. intros chunk. reflexivity.
Qed.

(** ** Normalisation of line breaks *)

Lemma replaceAll_go_skip (m : matcher) rep k s :
  replaceAll_go m rep k s = replaceAll_go m rep 0 (drop k s).
Proof.
  revert k. induction s as [|c s IH]; intros k; [by destruct k|].
  destruct k as [|k]; [done|]. cbn [replaceAll_go drop]. apply IH.
Qed.

Lemma replaceAll_cons (m : matcher) rep c s :
  replaceAll m rep (c :: s)
  = match m (c :: s) with
    | Some (S len) => rep ++ replaceAll m rep (drop len s)
    | _ => c :: replaceAll m rep s
    end.
Proof.
  unfold replaceAll. cbn [replaceAll_go].
  destruct (m (c :: s)) as [[|len]|]; try done. by rewrite replaceAll_go_skip.
Qed.

Lemma run_length_drop_head p s :
  match drop (run_length p s) s with
  | d :: _ => p d = false
  | [] => True
  end.
Proof.
  induction s as [|c s IH]; [done|]. cbn [run_length].
  destruct (p c) eqn:Hc; [exact IH|]. exact Hc.
Qed.

Lemma is_hspace_not_newline c : is_hspace c = true → ch_eqb c NEWLINE = false ∧ ch_eqb c CR = false.
Proof.
  unfold is_hspace. intros [[_ H1]%andb_prop H2]%andb_prop.
  by apply negb_true_iff in H1, H2.
Qed.

Lemma re_line_break_hspace c s :
  is_hspace c = true → re_line_break (c :: s) = S <$> re_line_break s.
Proof.
  intros Hc. unfold re_line_break. cbn [run_length]. rewrite Hc. cbn [drop].
  destruct (drop (run_length is_hspace s) s) as [|d rest]; [done|].
  destruct (ch_eqb d NEWLINE); [done|]. destruct (ch_eqb d CR); [|done].
  destruct rest as [|e rest]; [done|]. by destruct (ch_eqb e NEWLINE).
Qed.

Lemma re_line_break_newline c s : is_newline c = true → starts_break (c :: s) = true.
Proof.
  unfold is_newline. intros Hc. unfold starts_break, re_line_break. cbn [run_length].
  assert (is_hspace c = false) as ->.
  { unfold is_hspace. rewrite Hc. cbn. apply andb_false_r. }
  cbn [drop]. by rewrite Hc.
Qed.

Lemma drop_add {A} (a b : nat) (l : list A) : drop (a + b) l = drop b (drop a l).
Proof. symmetry. apply drop_drop. Qed.

Lemma re_line_break_rest s n :
  re_line_break s = Some n →
  match drop n s with
  | d :: _ => is_hspace d = false
  | [] => True
  end.
Proof.
  unfold re_line_break.
  destruct (drop (run_length is_hspace s) s) as [|d rest] eqn:Hdrop; [done|].
  destruct (ch_eqb d NEWLINE).
  - intros [= <-]. rewrite !drop_add, Hdrop. cbn [drop]. apply run_length_drop_head.
  - destruct (ch_eqb d CR); [|done]. destruct rest as [|e rest]; [done|].
    destruct (ch_eqb e NEWLINE); [|done].
    intros [= <-]. rewrite !drop_add, Hdrop. cbn [drop]. apply run_length_drop_head.
Qed.

Lemma padded_break_cons a s :
  padded_break (a :: s)
  = match s with
    | b :: _ => touches_break a b
    | [] => false
    end || padded_break s.
Proof. by destruct s. Qed.

Lemma normalise_clean n s :
  length s ≤ n →
  padded_break (replaceAll re_line_break [NEWLINE] s) = false
  ∧ head (replaceAll re_line_break [NEWLINE] s)
    = if starts_break s then Some NEWLINE else head s.
Proof.
  revert s. induction n as [|n IH]; intros s Hlen.
  { destruct s; [done|cbn in Hlen; lia]. }
  destruct s as [|c s]; [done|]. cbn [length] in Hlen.
  rewrite replaceAll_cons. unfold starts_break at 1.
  destruct (re_line_break (c :: s)) as [[|len]|] eqn:Hmatch.
  - destruct (IH s ltac:(lia)) as [Hclean Hhead]. split; [|done].
    rewrite padded_break_cons, Hclean, orb_false_r.
    destruct (replaceAll re_line_break [NEWLINE] s) as [|b out] eqn:Hout; [done|].
    cbn [head] in Hhead. unfold touches_break.
    destruct (is_hspace c) eqn:Hc.
    { rewrite re_line_break_hspace in Hmatch by done.
      destruct (re_line_break s); done. }
    destruct (is_newline c) eqn:Hn.
    { apply (re_line_break_newline c s) in Hn. unfold starts_break in Hn.
      by rewrite Hmatch in Hn. }
    done.
  - pose proof (re_line_break_rest _ _ Hmatch) as Hrest. cbn [drop] in Hrest.
    destruct (IH (drop len s)) as [Hclean Hhead].
    { rewrite length_drop. lia. }
    split; [|done]. cbn [app]. rewrite padded_break_cons, Hclean, orb_false_r.
    destruct (replaceAll re_line_break [NEWLINE] (drop len s)) as [|b out] eqn:Hout; [done|].
    cbn [head] in Hhead. unfold touches_break. cbn.
    destruct (starts_break (drop len s)).
    + by injection Hhead as ->.
    + destruct (drop len s) as [|d rest]; [done|]. cbn [head] in Hhead.
      injection Hhead as <-. by rewrite Hrest.
  - destruct (IH s ltac:(lia)) as [Hclean Hhead]. split; [|done].
    rewrite padded_break_cons, Hclean, orb_false_r.
    destruct (replaceAll re_line_break [NEWLINE] s) as [|b out] eqn:Hout; [done|].
    cbn [head] in Hhead. unfold touches_break.
    assert (is_newline c = false) as Hn.
    { destruct (is_newline c) eqn:Hn; [|done].
      apply (re_line_break_newline c s) in Hn. unfold starts_break in Hn.
      by rewrite Hmatch in Hn. }
    rewrite Hn. cbn [andb]. rewrite orb_false_r.
    destruct (is_hspace c) eqn:Hc; [|done]. cbn [andb].
    rewrite re_line_break_hspace in Hmatch by done.
    unfold starts_break in Hhead.
    destruct (re_line_break s) as [[|k]|] eqn:Hs; try done.
    destruct s as [|d rest]; [done|]. cbn [head] in Hhead. injection Hhead as <-.
    destruct (is_newline b) eqn:Hb; [|done].
    apply (re_line_break_newline b rest) in Hb. unfold starts_break in Hb.
    by rewrite Hs in Hb.
Qed.

(** The first step of [fromInlineMarkdown] leaves no horizontal white space
    next to a newline: in the normalised text no newline has a space, a tab
    or another character of white space other than CR and LF right before
    or right after it. *)
Theorem line_breaks_normalised (markdown : jsstring) :
  padded_break (replaceAll re_line_break [NEWLINE] markdown) = false.
Proof. exact (proj1 (normalise_clean (length markdown) markdown (Nat.le_refl _))). Qed.
